(** * The hub: one handler capability behind a single-shot and a streaming route

    A shallow embedding of [internal/hub/hub.go] and [internal/date/date.go].

    Conventions.
    - A Go [string] and the contents of a Go [[]byte] are both a Rocq
      [string] (a sequence of 8-bit characters); [string(b)] and [[]byte(s)]
      are the identity on contents.
    - A Go [int] is a [Z] in the 64-bit range.
    - A value of type [http.ResponseWriter] is modelled by the header map it
      exposes and the log of the calls made on it.
    - The packages [fmt] and [net/url] are modelled as far as the hub uses
      them; [encoding/json] is an interface ([Codec]) with a reference
      instance.
    - Logging has no effect on a response and is left out. *)

From stdpp Require Import base tactics option list gmap fin_maps strings relations.
From Stdlib Require Import ZArith Ascii String Lia.

Open Scope Z_scope.

(** ** Bytes and runes *)

Definition byte_val (c : ascii) : Z := Z.of_N (N_of_ascii c).

(** [utf8.RuneError], the replacement rune produced for an invalid encoding. *)
Definition RuneError : Z := 0xFFFD.

Definition newline : string := String "010" EmptyString.
Definition dquote : string := String "034" EmptyString.

Definition in_range (lo hi b : Z) : bool := (lo <=? b) && (b <=? hi).

Definition cont_bits (b : Z) : Z := Z.land b 0x3F.

(** Second-byte ranges of [utf8.acceptRanges] for three- and four-byte
    encodings. *)
Definition accept_lo (b0 : Z) : Z :=
  if b0 =? 0xE0 then 0xA0 else if b0 =? 0xF0 then 0x90 else 0x80.
Definition accept_hi (b0 : Z) : Z :=
  if b0 =? 0xED then 0x9F else if b0 =? 0xF4 then 0x8F else 0xBF.

(** The sequence of runes a reader decodes from a string, as
    [utf8.DecodeRune] does: an invalid encoding yields [RuneError] and
    consumes one byte. *)
Fixpoint runes (s : string) : list Z :=
  match s with
  | EmptyString => []
  | String c0 s1 =>
    let b0 := byte_val c0 in
    if b0 <? 0x80 then b0 :: runes s1
    else if in_range 0xC2 0xDF b0 then
      match s1 with
      | String c1 s2 =>
        if in_range 0x80 0xBF (byte_val c1)
        then Z.lor (Z.shiftl (Z.land b0 0x1F) 6) (cont_bits (byte_val c1)) :: runes s2
        else RuneError :: runes s1
      | EmptyString => RuneError :: runes s1
      end
    else if in_range 0xE0 0xEF b0 then
      match s1 with
      | String c1 (String c2 s3) =>
        if in_range (accept_lo b0) (accept_hi b0) (byte_val c1)
           && in_range 0x80 0xBF (byte_val c2)
        then Z.lor (Z.shiftl (Z.land b0 0x0F) 12)
               (Z.lor (Z.shiftl (cont_bits (byte_val c1)) 6) (cont_bits (byte_val c2)))
             :: runes s3
        else RuneError :: runes s1
      | _ => RuneError :: runes s1
      end
    else if in_range 0xF0 0xF4 b0 then
      match s1 with
      | String c1 (String c2 (String c3 s4)) =>
        if in_range (accept_lo b0) (accept_hi b0) (byte_val c1)
           && in_range 0x80 0xBF (byte_val c2)
           && in_range 0x80 0xBF (byte_val c3)
        then Z.lor (Z.shiftl (Z.land b0 0x07) 18)
               (Z.lor (Z.shiftl (cont_bits (byte_val c1)) 12)
                  (Z.lor (Z.shiftl (cont_bits (byte_val c2)) 6) (cont_bits (byte_val c3))))
             :: runes s4
        else RuneError :: runes s1
      | _ => RuneError :: runes s1
      end
    else RuneError :: runes s1
  end.

(** ** Package strconv: [ParseInt(tok, 10, 64)] *)

Module strconv.

Inductive NumError := ErrSyntax | ErrRange.

Definition maxUint64 : Z := 2 ^ 64 - 1.

(** The digit loop of [ParseUint] in base 10. An underscore is only legal
    with base prefix detection (base 0), so it is a syntax error here. *)
Fixpoint ParseUint_loop (n : Z) (tok : list Z) : NumError + Z :=
  match tok with
  | [] => inr n
  | c :: tok' =>
    if in_range 48 57 c then
      let d := c - 48 in
      if (maxUint64 / 10 + 1) <=? n then inl ErrRange
      else
        let n1 := n * 10 + d in
        if maxUint64 <? n1 then inl ErrRange else ParseUint_loop n1 tok'
    else inl ErrSyntax
  end.

Definition ParseUint (tok : list Z) : NumError + Z :=
  match tok with
  | [] => inl ErrSyntax
  | _ => ParseUint_loop 0 tok
  end.

Definition cutoff : Z := 2 ^ 63.

Definition ParseInt (tok : list Z) : NumError + Z :=
  match tok with
  | [] => inl ErrSyntax
  | c :: rest =>
    let neg := c =? 45 in
    let digits := if (c =? 43) || (c =? 45) then rest else tok in
    match ParseUint digits with
    | inl ErrSyntax => inl ErrSyntax
    | inl ErrRange => inl ErrRange
    | inr un =>
      if negb neg && (cutoff <=? un) then inl ErrRange
      else if neg && (cutoff <? un) then inl ErrRange
      else inr (if neg then - un else un)
    end
  end.

End strconv.

(** ** Package fmt: [Sscanf(str, "%d", &n)] *)

Module fmt.

(** The white-space table of [fmt/scan.go]. *)
Definition isSpace (r : Z) : bool :=
  in_range 0x0009 0x000d r || (r =? 0x0020) || (r =? 0x0085) || (r =? 0x00a0)
  || (r =? 0x1680) || in_range 0x2000 0x200a r || in_range 0x2028 0x2029 r
  || (r =? 0x202f) || (r =? 0x205f) || (r =? 0x3000).

Definition peek_newline (rs : list Z) : bool :=
  match rs with
  | r :: _ => r =? 10
  | [] => false
  end.

(** [ss.SkipSpace] with [nlIsSpace] unset, as [Sscanf] leaves it: a newline
    is an error ("unexpected newline"); [None] is that error. *)
Fixpoint SkipSpace (rs : list Z) : option (list Z) :=
  match rs with
  | [] => Some []
  | r :: rest =>
    if (r =? 13) && peek_newline rest then SkipSpace rest
    else if r =? 10 then None
    else if isSpace r then SkipSpace rest
    else Some rs
  end.

Definition is_sign (r : Z) : bool := (r =? 43) || (r =? 45).

(** [decimalDigits]: the digits and the underscore. *)
Definition is_decimalDigit (r : Z) : bool := in_range 48 57 r || (r =? 95).

Fixpoint accept_all (ok : Z → bool) (rs : list Z) : list Z :=
  match rs with
  | r :: rest => if ok r then r :: accept_all ok rest else []
  | [] => []
  end.

(** [ss.scanInt] for verb [d] and a 64-bit [int]: skip space, fail at the
    end of input, accept one sign, accept at least one digit, convert the
    token. Input after the token is left unread. *)
Definition scanInt (rs : list Z) : option Z :=
  match SkipSpace rs with
  | None => None
  | Some [] => None
  | Some (r :: rest) =>
    let sgn := if is_sign r then [r] else [] in
    let after := if is_sign r then rest else r :: rest in
    match accept_all is_decimalDigit after with
    | [] => None
    | digits =>
      match strconv.ParseInt (sgn ++ digits) with
      | inr i => Some i
      | inl _ => None
      end
    end
  end.

(** [Sscanf(str, "%d", &n)]: [Some n] when one item was scanned without
    error, [None] when [err != nil]. *)
Definition Sscanf_d (str : string) : option Z := scanInt (runes str).

End fmt.

(** ** Package net/url: query values *)

Module url.

(** [url.Values]: a key maps to the list of its values. *)
Abbreviation Values := (gmap string (list string)).

Definition Get (v : Values) (key : string) : string :=
  match v !! key with
  | Some (x :: _) => x
  | _ => EmptyString
  end.

Definition Set_ (v : Values) (key value : string) : Values :=
  <[key := [value]]> v.

End url.

(** A request, as far as the hub and its endpoints read it. The raw query is
    kept in parsed form: [url.ParseQuery] and [Values.Encode] are taken as
    inverse to each other, so [r.URL.Query()] reads the field and
    [r.URL.RawQuery = q.Encode()] writes it. *)
Record Request := mkRequest {
  Method : string;
  Path : string;
  RawQuery : url.Values
}.

Definition Query (r : Request) : url.Values := RawQuery r.

Definition setRawQuery (r : Request) (q : url.Values) : Request :=
  {| Method := Method r; Path := Path r; RawQuery := q |}.

Definition StatusOK : Z := 200.
Definition StatusInternalServerError : Z := 500.

(** ** hub.go: getMaxCount *)

Definition getMaxCount (r : Request) : Z :=
  let maxCountStr := url.Get (Query r) "max_count" in
  if decide (maxCountStr = EmptyString) then 3600
  else
    match fmt.Sscanf_d maxCountStr with
    | None => 3600
    | Some maxCount => if maxCount <=? 0 then 3600 else maxCount
    end.


(** ** Package encoding/json, as the hub uses it *)

(** [any] is the dynamic content of an [interface{}]; [any_string s] is a Go
    string stored in one. [Unmarshal data] is [json.Unmarshal(data, &v)] for
    [v] of type [interface{}]: [Some v] when [err == nil]. [Marshal] encodes
    a [DataResponse]: [None] when [err != nil]. *)
Class Codec := {
  any : Type;
  any_string : string → any;
  Unmarshal : string → option any;
  Marshal_data : any → option string
}.

(** [DataResponse], with its only field [Data interface{}] tagged [data]. *)
Record DataResponse `{Codec} := mkDataResponse { Data : any }.

Definition Marshal `{Codec} (v : DataResponse) : option string :=
  Marshal_data (Data v).

(** ** The response writer *)

Abbreviation Header := (gmap string (list string)).

Inductive Call :=
| CallWriteHeader (statusCode : Z)
| CallWrite (b : string)
| CallFlush.

(** The live connection: its header map, the calls made on it so far, and
    whether its dynamic type implements [http.Flusher]. *)
Record ResponseWriter := mkResponseWriter {
  w_header : Header;
  w_calls : list Call;
  w_flusher : bool
}.

Definition call (c : Call) (w : ResponseWriter) : ResponseWriter :=
  {| w_header := w_header w; w_calls := w_calls w ++ [c]; w_flusher := w_flusher w |}.

Definition with_header (h : Header) (w : ResponseWriter) : ResponseWriter :=
  {| w_header := h; w_calls := w_calls w; w_flusher := w_flusher w |}.

(** [w.Header().Set(key, value)] for a key in canonical form. *)
Definition Header_Set (key value : string) (w : ResponseWriter) : ResponseWriter :=
  with_header (<[key := [value]]> (w_header w)) w.

(** [http.Error(w, error, code)]. *)
Definition http_Error (w : ResponseWriter) (error : string) (code : Z) : ResponseWriter :=
  let w := with_header (delete "Content-Length"%string (w_header w)) w in
  let w := Header_Set "Content-Type" "text/plain; charset=utf-8" w in
  let w := Header_Set "X-Content-Type-Options" "nosniff" w in
  let w := call (CallWriteHeader code) w in
  call (CallWrite (error +:+ newline)) w.

(** The [CallWrite] payloads of a call log, in order. *)
Definition bodies (cs : list Call) : list string :=
  omap (λ c, match c with CallWrite b => Some b | _ => None end) cs.

(** The calls that put bytes on the wire or flush them. *)
Definition is_wire (c : Call) : bool :=
  match c with
  | CallWriteHeader _ => false
  | _ => true
  end.

Definition wire (cs : list Call) : list Call := List.filter is_wire cs.

(** ** The handler capability *)

Definition error := option string.

Definition len (b : string) : Z := Z.of_nat (String.length b).

(** What an invocation of [HandleSSE] does to the sink it is given: it
    writes a chunk and continues with the result [(n, err)] of the write, it
    sets the status code, or it sets a header (key in canonical form). *)
Inductive Prog :=
| Return
| Write (b : string) (k : Z * error → Prog)
| WriteHeader (statusCode : Z) (k : Prog)
| HeaderSet (key value : string) (k : Prog).

(** The interface [Endpoint]. *)
Record Endpoint := mkEndpoint { HandleSSE : Request → Prog }.

(** ** hub.go: responseRecorder *)

Record responseRecorder := mkRecorder {
  header : Header;
  body : string;
  code : Z
}.

Definition recorder_Write (b : string) (r : responseRecorder) : (Z * error) * responseRecorder :=
  ((len b, None), {| header := header r; body := body r +:+ b; code := code r |}).

Definition recorder_WriteHeader (statusCode : Z) (r : responseRecorder) : responseRecorder :=
  {| header := header r; body := body r; code := statusCode |}.

Definition recorder_HeaderSet (key value : string) (r : responseRecorder) : responseRecorder :=
  {| header := <[key := [value]]> (header r); body := body r; code := code r |}.

Definition BodyString (r : responseRecorder) : string := body r.
Definition BodyBytes (r : responseRecorder) : string := body r.

(** The recorder after the capability ran against it. *)
Fixpoint run_recorder (p : Prog) (rr : responseRecorder) : responseRecorder :=
  match p with
  | Return => rr
  | Write b k =>
    let '(res, rr') := recorder_Write b rr in run_recorder (k res) rr'
  | WriteHeader c k => run_recorder k (recorder_WriteHeader c rr)
  | HeaderSet key v k => run_recorder k (recorder_HeaderSet key v rr)
  end.

(** ** hub.go: the single-shot route *)

Section REST.
Context `{Codec}.

(** Lines 214-224 and 270-280: parse the captured bytes, fall back to the
    string, wrap in a [DataResponse]. *)
Definition wrap (responseData : string) : DataResponse :=
  match Unmarshal responseData with
  | Some responseObj => mkDataResponse _ responseObj
  | None => mkDataResponse _ (any_string responseData)
  end.

(** [json.NewEncoder(w).Encode(v)]: the encoding and a newline, in one
    write; nothing is written when encoding fails. *)
Definition Encode (w : ResponseWriter) (v : DataResponse) : option ResponseWriter :=
  match Marshal v with
  | Some j => Some (call (CallWrite (j +:+ newline)) w)
  | None => None
  end.

(** Lines 186-189: the request the capability is invoked with. *)
Definition restRequest (r : Request) : Request :=
  let q := Query r in
  let q := url.Set_ q "max_count" "1" in
  setRawQuery r q.

Definition newRecorder : responseRecorder :=
  {| header := ∅; body := EmptyString; code := StatusOK |}.

(** Lines 199-231: what the handler does once the capability returned. *)
Definition restRespond (w : ResponseWriter) (rr : responseRecorder) : ResponseWriter :=
  let w := with_header (header rr ∪ w_header w) w in
  let w := Header_Set "Content-Type" "application/json" w in
  if decide (code rr ≠ StatusOK) then
    let w := call (CallWriteHeader (code rr)) w in
    call (CallWrite (BodyBytes rr)) w
  else
    match Encode w (wrap (BodyBytes rr)) with
    | Some w => w
    | None => http_Error w "Error encoding response" StatusInternalServerError
    end.

(** The handler bound to ["/" + endpointName]. *)
Definition restHandler (endpointHandler : Endpoint) (w : ResponseWriter) (r : Request)
  : ResponseWriter :=
  let r := restRequest r in
  let rr := run_recorder (HandleSSE endpointHandler r) newRecorder in
  restRespond w rr.

End REST.

(** ** hub.go: the streaming route *)

(** A Go channel of byte slices: the buffered elements, the capacity given
    to [make], and whether it was closed. *)
Record Chan := mkChan {
  ch_buf : list string;
  ch_cap : nat;
  ch_closed : bool
}.

(** [make(chan []byte)]: no capacity. *)
Definition make_chan : Chan := {| ch_buf := []; ch_cap := 0; ch_closed := false |}.

(** The goroutine that runs the capability. *)
Inductive Producer :=
| PRunning (p : Prog)
| PSending (data : string) (k : Z * error → Prog)
| PClosed.

(** The handler's loop [for responseData := range responseChan]. *)
Inductive Consumer :=
| CReceiving
| CHolding (responseData : string)
| CWritten
| CReturned.

(** One streaming connection while both sides run. *)
Record Conn := mkConn {
  producer : Producer;
  consumer : Consumer;
  responseChan : Chan;
  conn_w : ResponseWriter
}.

Section SSE.
Context `{Codec}.

(** Line 290: [fmt.Fprintf(w, "data: %s\n\n", wrappedData)], one write. *)
Definition frame (wrappedData : string) : string :=
  "data: " +:+ wrappedData +:+ newline +:+ newline.

(** Lines 239-250: the headers and the flusher check. [inl] is the
    connection refused with a server error, [inr] the writer the stream
    starts with. *)
Definition sseOpen (w : ResponseWriter) : ResponseWriter + ResponseWriter :=
  let w := Header_Set "Content-Type" "text/event-stream" w in
  let w := Header_Set "Cache-Control" "no-cache" w in
  let w := Header_Set "Connection" "keep-alive" w in
  let w := Header_Set "Access-Control-Allow-Origin" "*" w in
  if w_flusher w then inr w
  else inl (http_Error w "Streaming not supported" StatusInternalServerError).

(** Lines 252-266: the channel is made and the goroutine started on the
    request as received. *)
Definition sseStart (endpointHandler : Endpoint) (w : ResponseWriter) (r : Request) : Conn :=
  {| producer := PRunning (HandleSSE endpointHandler r);
     consumer := CReceiving;
     responseChan := make_chan;
     conn_w := w |}.

Definition set_producer (p : Producer) (s : Conn) : Conn :=
  {| producer := p; consumer := consumer s; responseChan := responseChan s; conn_w := conn_w s |}.
Definition set_consumer (c : Consumer) (s : Conn) : Conn :=
  {| producer := producer s; consumer := c; responseChan := responseChan s; conn_w := conn_w s |}.
Definition set_chan (ch : Chan) (s : Conn) : Conn :=
  {| producer := producer s; consumer := consumer s; responseChan := ch; conn_w := conn_w s |}.
Definition set_w (w : ResponseWriter) (s : Conn) : Conn :=
  {| producer := producer s; consumer := consumer s; responseChan := responseChan s; conn_w := w |}.

Definition enqueue (d : string) (ch : Chan) : Chan :=
  {| ch_buf := ch_buf ch ++ [d]; ch_cap := ch_cap ch; ch_closed := ch_closed ch |}.
Definition set_buf (l : list string) (ch : Chan) : Chan :=
  {| ch_buf := l; ch_cap := ch_cap ch; ch_closed := ch_closed ch |}.
Definition close (ch : Chan) : Chan :=
  {| ch_buf := ch_buf ch; ch_cap := ch_cap ch; ch_closed := true |}.

(** The interleavings of the two sides.

    Producer: [customResponseWriter.Write] copies the slice and offers the
    copy to the channel ([step_write]); [WriteHeader] and [Header] are
    promoted from the embedded live writer; returning from [HandleSSE]
    closes the channel. A send completes when the buffer has room
    ([step_send_buffered]) or a receiver is waiting ([step_handoff]); the
    call to [Write] returns [(len(b), nil)] only then.

    Consumer: a receive takes a buffered element, or the element of a
    blocked sender, or ends the loop when the channel is closed and
    empty. The loop body marshals, writes the frame and flushes; when
    marshalling fails it continues with the next receive. *)
Inductive step : Conn → Conn → Prop :=
| step_write s b k :
    producer s = PRunning (Write b k) →
    step s (set_producer (PSending b k) s)
| step_writeheader s c k :
    producer s = PRunning (WriteHeader c k) →
    step s (set_w (call (CallWriteHeader c) (conn_w s)) (set_producer (PRunning k) s))
| step_headerset s key v k :
    producer s = PRunning (HeaderSet key v k) →
    step s (set_w (Header_Set key v (conn_w s)) (set_producer (PRunning k) s))
| step_close s :
    producer s = PRunning Return →
    step s (set_chan (close (responseChan s)) (set_producer PClosed s))
| step_send_buffered s d k :
    producer s = PSending d k →
    (List.length (ch_buf (responseChan s)) < ch_cap (responseChan s))%nat →
    step s (set_chan (enqueue d (responseChan s))
              (set_producer (PRunning (k (len d, None))) s))
| step_handoff s d k :
    producer s = PSending d k →
    consumer s = CReceiving →
    ch_buf (responseChan s) = [] →
    step s (set_consumer (CHolding d) (set_producer (PRunning (k (len d, None))) s))
| step_recv_buffered s d rest :
    consumer s = CReceiving →
    ch_buf (responseChan s) = d :: rest →
    step s (set_chan (set_buf rest (responseChan s)) (set_consumer (CHolding d) s))
| step_exit s :
    consumer s = CReceiving →
    ch_buf (responseChan s) = [] →
    ch_closed (responseChan s) = true →
    step s (set_consumer CReturned s)
| step_frame s d wrappedData :
    consumer s = CHolding d →
    Marshal (wrap d) = Some wrappedData →
    step s (set_w (call (CallWrite (frame wrappedData)) (conn_w s)) (set_consumer CWritten s))
| step_drop s d :
    consumer s = CHolding d →
    Marshal (wrap d) = None →
    step s (set_consumer CReceiving s)
| step_flush s :
    consumer s = CWritten →
    step s (set_w (call CallFlush (conn_w s)) (set_consumer CReceiving s)).

(** A connection is over when the handler returned. *)
Definition finished (s : Conn) : Prop := consumer s = CReturned.

(** The chunks in the relay: buffered in the channel, or offered by the
    blocked sender and not yet taken. *)
Definition in_flight (s : Conn) : list string :=
  ch_buf (responseChan s) ++
  match producer s with
  | PSending d _ => [d]
  | _ => []
  end.

(** The chunks a capability writes, in order, when every write reports
    success. *)
Fixpoint chunks (p : Prog) : list string :=
  match p with
  | Return => []
  | Write b k => b :: chunks (k (len b, None))
  | WriteHeader _ k => chunks k
  | HeaderSet _ _ k => chunks k
  end.

(** One iteration of the loop body, lines 270-291. *)
Definition forward (responseData : string) : list Call :=
  match Marshal (wrap responseData) with
  | Some wrappedData => [CallWrite (frame wrappedData); CallFlush]
  | None => []
  end.

(** The sequential reading of the route: every write of the capability is
    forwarded before the capability goes on. *)
Fixpoint relay (p : Prog) (w : ResponseWriter) : ResponseWriter :=
  match p with
  | Return => w
  | Write b k =>
    relay (k (len b, None))
      (mkResponseWriter (w_header w) (w_calls w ++ forward b) (w_flusher w))
  | WriteHeader c k => relay k (call (CallWriteHeader c) w)
  | HeaderSet key v k => relay k (Header_Set key v w)
  end.

(** The handler bound to ["/" + endpointName + "/stream"], in its
    sequential reading. *)
Definition sseHandler (endpointHandler : Endpoint) (w : ResponseWriter) (r : Request)
  : ResponseWriter :=
  match sseOpen w with
  | inl w => w
  | inr w => relay (HandleSSE endpointHandler r) w
  end.

End SSE.

(** ** hub.go: customResponseWriter.Write over the heap *)

Module relay_writer.

Abbreviation loc := positive.

(** The heap of backing arrays, and a slice as a window on one of them. *)
Abbreviation heap := (gmap loc (list ascii)).

Record slice := mkSlice { base : loc; off : nat; size : nat }.

Definition contents (h : heap) (b : slice) : list ascii :=
  take (size b) (drop (off b) (default [] (h !! base b))).

(** The heap and the values sent on [responseChan] so far. *)
Record world := mkWorld { mem : heap; sent : list slice }.

(** [make([]byte, n)]: a zeroed array at a location not in use. *)
Definition make (n : nat) (h : heap) : slice * heap :=
  let l := fresh (dom h) in
  (mkSlice l 0 n, <[l := replicate n zero]> h).

(** [copy(dst, src)]: the first [min(len(dst), len(src))] elements. *)
Definition copy (dst src : slice) (h : heap) : heap :=
  let n := (size dst `min` size src)%nat in
  let arr := default [] (h !! base dst) in
  <[base dst := take (off dst) arr ++ take n (contents h src) ++ drop (off dst + n) arr]> h.

(** [b[i] = v], for [i] within the slice. *)
Definition store (b : slice) (i : nat) (v : ascii) (h : heap) : heap :=
  if decide (i < size b)%nat
  then <[base b := <[(off b + i)%nat := v]> (default [] (h !! base b))]> h
  else h.

(** [Write]: lines 116-122. The send is recorded in [sent]; when it
    completes is the subject of [step]. *)
Definition Write (b : slice) (σ : world) : (Z * error) * world :=
  let '(data, h) := make (size b) (mem σ) in
  let h := copy data b h in
  ((Z.of_nat (size b), None), {| mem := h; sent := sent σ ++ [data] |}).

(** A slice is empty or lies within an allocated array. *)
Definition valid (h : heap) (b : slice) : Prop :=
  size b = 0%nat ∨
  ∃ arr, h !! base b = Some arr ∧ (off b + size b ≤ List.length arr)%nat.

End relay_writer.

(** ** date.go: the date endpoint *)

Module date.

(** [json.Marshal(DateResponse{UTC: utc})] for [utc] in RFC 3339 form,
    which holds no character that the encoder escapes. *)
Definition Marshal_DateResponse (utc : string) : string :=
  "{" +:+ dquote +:+ "UTC" +:+ dquote +:+ ":" +:+ dquote +:+ utc +:+ dquote +:+ "}".

(** Lines 41-47. The result of [Sscanf] is dropped: on a scan error
    [maxCount] keeps its zero value. *)
Definition maxCount_of (r : Request) : Z :=
  let maxCountStr := url.Get (Query r) "max_count" in
  if decide (maxCountStr ≠ EmptyString) then
    match fmt.Sscanf_d maxCountStr with
    | Some n => n
    | None => 0
    end
  else 3600.

(** Lines 63-106. [ticks] holds, for every tick the loop receives before
    the context is done, the rendering
    [time.Now().UTC().Format(time.RFC3339)] at that tick; then the
    [ctx.Done()] case is taken. Neither sink of the hub is an
    [http.Flusher], so the flush at lines 99-101 is skipped. *)
Fixpoint loop (maxCount count : Z) (ticks : list string) : Prog :=
  match ticks with
  | [] => Return
  | utc :: ticks' =>
    if maxCount <=? count then Return
    else
      Write (Marshal_DateResponse utc)
        (λ res, match res.2 with
                | Some _ => Return
                | None => loop maxCount (count + 1) ticks'
                end)
  end.

Definition HandleSSE (ticks : list string) (r : Request) : Prog :=
  loop (maxCount_of r) 0 ticks.

Definition New (ticks : list string) : Endpoint := mkEndpoint (HandleSSE ticks).

End date.

(** ** hub_test.go: the mock endpoint *)

(** It sets a content type and writes its data once, whatever the limit. *)
Definition MockEndpoint (data : string) : Endpoint :=
  mkEndpoint (λ r, HeaderSet "Content-Type" "application/json" (Write data (λ _, Return))).

(** ** hub.go: the registry and the routes *)

Record Config := mkConfig { Port : string; LogLevel : string }.

Definition DefaultConfig : Config := {| Port := "8080"; LogLevel := "info" |}.

Record Hub := mkHub { endpoints : gmap string Endpoint; config : Config }.

Definition New (config : Config) : Hub := {| endpoints := ∅; config := config |}.

Definition RegisterEndpoint (p : Hub) (name : string) (endpoint : Endpoint) : Hub :=
  {| endpoints := <[name := endpoint]> (endpoints p); config := config p |}.

(** The two closures [Start] builds for an entry. *)
Inductive Route :=
| RouteREST (endpointHandler : Endpoint)
| RouteSSE (endpointHandler : Endpoint).

Abbreviation ServeMux := (gmap string Route).

(** [mux.HandleFunc(pattern, h)]; registering a pattern twice panics, which
    is [None]. *)
Definition HandleFunc (pattern : string) (h : Route) (mux : option ServeMux) : option ServeMux :=
  match mux with
  | Some m =>
    match m !! pattern with
    | Some _ => None
    | None => Some (<[pattern := h]> m)
    end
  | None => None
  end.

Definition register_routes (name : string) (endpoint : Endpoint) (mux : option ServeMux)
  : option ServeMux :=
  HandleFunc ("/" +:+ name +:+ "/stream") (RouteSSE endpoint)
    (HandleFunc ("/" +:+ name) (RouteREST endpoint) mux).

(** Lines 174-295 of [Start]: the route table served. *)
Definition routes (p : Hub) : option ServeMux :=
  map_fold register_routes (Some ∅) (endpoints p).


(** ** A reference instance of the codec

    [json] follows [encoding/json] for [interface{}] targets on a fragment:
    literals, strings, arrays, objects, and integer number literals between
    -2^53 and 2^53 other than [-0]. Go decodes every number into a
    [float64]; a number literal with a fraction or an exponent, or outside
    that range, is rejected here, where [encoding/json] rounds it. *)

Module json.

#[local] Unset Elimination Schemes.
Inductive value :=
| Null
| Bool (b : bool)
| Number (n : Z)
| Str (s : string)
| Array (l : list value)
| Object (m : list (string * value)).
#[local] Set Elimination Schemes.

Definition chr (n : Z) : ascii := ascii_of_N (Z.to_N n).
Definition str1 (n : Z) : string := String (chr n) EmptyString.

(** [utf8.DecodeRuneInString]: the first rune and its width; an invalid
    encoding is [(RuneError, 1)]. *)
Definition decode (s : string) : Z * nat :=
  match runes s, s with
  | r :: _, String c0 _ =>
    let b0 := byte_val c0 in
    if b0 <? 0x80 then (r, 1%nat)
    else if r =? RuneError then
      (* U+FFFD itself is encoded EF BF BD *)
      match s with
      | String _ (String c1 (String c2 _)) =>
        if (b0 =? 0xEF) && (byte_val c1 =? 0xBF) && (byte_val c2 =? 0xBD)
        then (r, 3%nat) else (r, 1%nat)
      | _ => (r, 1%nat)
      end
    else if r <? 0x800 then (r, 2%nat)
    else if r <? 0x10000 then (r, 3%nat)
    else (r, 4%nat)
  | _, _ => (RuneError, 0%nat)
  end.

(** [utf8.EncodeRune]. *)
Definition encode (r : Z) : string :=
  if r <? 0x80 then str1 r
  else if r <? 0x800 then
    str1 (Z.lor 0xC0 (Z.shiftr r 6)) +:+ str1 (Z.lor 0x80 (Z.land r 0x3F))
  else if in_range 0xD800 0xDFFF r || (0x10FFFF <? r) then
    str1 0xEF +:+ str1 0xBF +:+ str1 0xBD
  else if r <? 0x10000 then
    str1 (Z.lor 0xE0 (Z.shiftr r 12)) +:+ str1 (Z.lor 0x80 (Z.land (Z.shiftr r 6) 0x3F))
    +:+ str1 (Z.lor 0x80 (Z.land r 0x3F))
  else
    str1 (Z.lor 0xF0 (Z.shiftr r 18)) +:+ str1 (Z.lor 0x80 (Z.land (Z.shiftr r 12) 0x3F))
    +:+ str1 (Z.lor 0x80 (Z.land (Z.shiftr r 6) 0x3F)) +:+ str1 (Z.lor 0x80 (Z.land r 0x3F)).

Definition hex (n : Z) : string :=
  str1 (if n <? 10 then 48 + n else 87 + n).

(** How the next characters are treated while a string is rewritten. *)
Inductive mode := Plain | Copy (n : nat) | Drop (n : nat).

(** One ASCII byte inside a marshalled string, with HTML escaping on. *)
Definition escape_ascii (b : Z) : string :=
  if (b =? 34) || (b =? 92) then "\" +:+ str1 b
  else if b =? 8 then "\b"
  else if b =? 12 then "\f"
  else if b =? 10 then "\n"
  else if b =? 13 then "\r"
  else if b =? 9 then "\t"
  else if (b <? 0x20) || (b =? 60) || (b =? 62) || (b =? 38)
  then "\u00" +:+ hex (Z.shiftr b 4) +:+ hex (Z.land b 0xF)
  else str1 b.

(** The body of a marshalled string, between the quotes. *)
Fixpoint appendString (m : mode) (s : string) : string :=
  match s with
  | EmptyString => EmptyString
  | String c s' =>
    match m with
    | Copy (S n) => String c (appendString (Copy n) s')
    | Drop (S n) => appendString (Drop n) s'
    | _ =>
      let b := byte_val c in
      if b <? 0x80 then escape_ascii b +:+ appendString Plain s'
      else
        let '(r, width) := decode s in
        if (r =? RuneError) && (width =? 1)%nat then "\ufffd" +:+ appendString Plain s'
        else if in_range 0x2028 0x2029 r
        then "\u202" +:+ hex (Z.land r 0xF) +:+ appendString (Drop (width - 1)) s'
        else String c (appendString (Copy (width - 1)) s')
    end
  end.

Definition quote (s : string) : string :=
  dquote +:+ appendString Plain s +:+ dquote.

(** [strconv.Itoa] for the digits of a number. *)
Fixpoint digits (fuel : nat) (n : Z) (acc : string) : string :=
  let acc := String (chr (48 + n mod 10)) acc in
  match fuel with
  | O => acc
  | S fuel => if n <? 10 then acc else digits fuel (n / 10) acc
  end.

Definition Itoa (n : Z) : string :=
  if n <? 0 then "-" +:+ digits (Z.to_nat (Z.log2 (- n))) (- n) EmptyString
  else digits (Z.to_nat (Z.log2 n)) n EmptyString.

Fixpoint sepBy (sep : string) (l : list string) : string :=
  match l with
  | [] => EmptyString
  | [x] => x
  | x :: l' => x +:+ sep +:+ sepBy sep l'
  end.

Fixpoint marshal (v : value) : string :=
  match v with
  | Null => "null"
  | Bool true => "true"
  | Bool false => "false"
  | Number n => Itoa n
  | Str s => quote s
  | Array l => "[" +:+ sepBy "," (List.map marshal l) +:+ "]"
  | Object m =>
    "{" +:+ sepBy "," (List.map (λ kv, quote kv.1 +:+ ":" +:+ marshal kv.2) m) +:+ "}"
  end.

(** A decoded object is a Go map, marshalled with its keys sorted: the
    association list is kept sorted, a repeated key replacing the earlier
    entry. *)
Fixpoint put (k : string) (v : value) (m : list (string * value)) : list (string * value) :=
  match m with
  | [] => [(k, v)]
  | (k', v') :: m' =>
    if String.eqb k k' then (k, v) :: m'
    else if String.ltb k k' then (k, v) :: m
    else (k', v') :: put k v m'
  end.

Definition hexval (b : Z) : option Z :=
  if in_range 48 57 b then Some (b - 48)
  else if in_range 97 102 b then Some (b - 87)
  else if in_range 65 70 b then Some (b - 55)
  else None.

(** [getu4]: the code unit of an escape, given the text after the
    backslash. *)
Definition getu4 (s : string) : option Z :=
  match s with
  | String u (String h1 (String h2 (String h3 (String h4 _)))) =>
    if byte_val u =? 117 then
      a ← hexval (byte_val h1); b ← hexval (byte_val h2);
      c ← hexval (byte_val h3); d ← hexval (byte_val h4);
      Some (((a * 16 + b) * 16 + c) * 16 + d)
    else None
  | _ => None
  end.

Fixpoint drop_string (n : nat) (s : string) : string :=
  match n, s with
  | S n, String _ s' => drop_string n s'
  | _, _ => s
  end.

(** An escape, given the text after the backslash: the bytes it stands
    for and the number of characters it takes. *)
Definition unescape (s : string) : option (string * nat) :=
  match s with
  | EmptyString => None
  | String c _ =>
    let b := byte_val c in
    if (b =? 34) || (b =? 92) || (b =? 47) then Some (str1 b, 1%nat)
    else if b =? 98 then Some (str1 8, 1%nat)
    else if b =? 102 then Some (str1 12, 1%nat)
    else if b =? 110 then Some (str1 10, 1%nat)
    else if b =? 114 then Some (str1 13, 1%nat)
    else if b =? 116 then Some (str1 9, 1%nat)
    else if b =? 117 then
      match getu4 s with
      | None => None
      | Some rr =>
        if in_range 0xD800 0xDFFF rr then
          match drop_string 5 s with
          | String bs rest =>
            match (if byte_val bs =? 92 then getu4 rest else None) with
            | Some rr1 =>
              if in_range 0xD800 0xDBFF rr && in_range 0xDC00 0xDFFF rr1
              then Some (encode (Z.lor (Z.shiftl (rr - 0xD800) 10) (rr1 - 0xDC00) + 0x10000),
                         11%nat)
              else Some (encode RuneError, 5%nat)
            | None => Some (encode RuneError, 5%nat)
            end
          | EmptyString => Some (encode RuneError, 5%nat)
          end
        else Some (encode rr, 5%nat)
      end
    else None
  end.

Definition prepend {A} (out : string) (r : option (string * A)) : option (string * A) :=
  match r with
  | Some (s, rest) => Some (out +:+ s, rest)
  | None => None
  end.

(** The text of a string literal after its opening quote: the decoded
    string and what follows the closing quote. *)
Fixpoint unquote (m : mode) (s : string) : option (string * string) :=
  match s with
  | EmptyString => None
  | String c s' =>
    match m with
    | Copy (S n) => prepend (String c EmptyString) (unquote (Copy n) s')
    | Drop (S n) => unquote (Drop n) s'
    | _ =>
      let b := byte_val c in
      if b =? 34 then Some (EmptyString, s')
      else if b =? 92 then
        match unescape s' with
        | Some (out, n) => prepend out (unquote (Drop n) s')
        | None => None
        end
      else if b <? 0x20 then None
      else if b <? 0x80 then prepend (String c EmptyString) (unquote Plain s')
      else
        let '(r, width) := decode s in
        if (r =? RuneError) && (width =? 1)%nat
        then prepend (encode RuneError) (unquote Plain s')
        else prepend (String c EmptyString) (unquote (Copy (width - 1)) s')
    end
  end.

Definition is_ws (b : Z) : bool := (b =? 32) || (b =? 9) || (b =? 10) || (b =? 13).

Fixpoint skip_ws (s : string) : string :=
  match s with
  | String c s' => if is_ws (byte_val c) then skip_ws s' else s
  | EmptyString => s
  end.

Fixpoint take_digits (s : string) (acc : Z) : Z * string :=
  match s with
  | String c s' =>
    if in_range 48 57 (byte_val c) then take_digits s' (acc * 10 + (byte_val c - 48))
    else (acc, s)
  | EmptyString => (acc, s)
  end.

Definition starts_fraction (s : string) : bool :=
  match s with
  | String c _ => (byte_val c =? 46) || (byte_val c =? 101) || (byte_val c =? 69)
  | EmptyString => false
  end.

(** An integer literal: no leading zero, no fraction, no exponent. *)
Definition parse_number (s : string) : option (value * string) :=
  let '(neg, s1) :=
    match s with
    | String c s' => if byte_val c =? 45 then (true, s') else (false, s)
    | EmptyString => (false, s)
    end in
  match s1 with
  | String c s2 =>
    let b := byte_val c in
    if in_range 48 57 b then
      let '(n, rest) := if b =? 48 then (0, s2) else take_digits s1 0 in
      if starts_fraction rest then None
      else if (b =? 48) && neg then None
      else if 2 ^ 53 <? n then None
      else
        match rest with
        | String d _ => if in_range 48 57 (byte_val d) then None
                        else Some (Number (if neg then - n else n), rest)
        | EmptyString => Some (Number (if neg then - n else n), rest)
        end
    else None
  | EmptyString => None
  end.

Definition expect (lit : string) (v : value) (s : string) : option (value * string) :=
  if String.prefix lit s then Some (v, drop_string (String.length lit) s) else None.

Fixpoint parse_value (fuel : nat) (s : string) : option (value * string) :=
  match fuel with
  | O => None
  | S fuel =>
    match skip_ws s with
    | EmptyString => None
    | String c rest as s0 =>
      let b := byte_val c in
      if b =? 110 then expect "null" Null s0
      else if b =? 116 then expect "true" (Bool true) s0
      else if b =? 102 then expect "false" (Bool false) s0
      else if b =? 34 then
        match unquote Plain rest with
        | Some (str, rest) => Some (Str str, rest)
        | None => None
        end
      else if b =? 91 then
        match skip_ws rest with
        | String c' rest' =>
          if byte_val c' =? 93 then Some (Array [], rest')
          else
            match parse_elements fuel rest with
            | Some (l, rest) => Some (Array l, rest)
            | None => None
            end
        | EmptyString => None
        end
      else if b =? 123 then
        match skip_ws rest with
        | String c' rest' =>
          if byte_val c' =? 125 then Some (Object [], rest')
          else
            match parse_members fuel rest [] with
            | Some (m, rest) => Some (Object m, rest)
            | None => None
            end
        | EmptyString => None
        end
      else parse_number s0
    end
  end
with parse_elements (fuel : nat) (s : string) : option (list value * string) :=
  match fuel with
  | O => None
  | S fuel =>
    match parse_value fuel s with
    | Some (v, rest) =>
      match skip_ws rest with
      | String c rest' =>
        if byte_val c =? 93 then Some ([v], rest')
        else if byte_val c =? 44 then
          match parse_elements fuel rest' with
          | Some (l, rest) => Some (v :: l, rest)
          | None => None
          end
        else None
      | EmptyString => None
      end
    | None => None
    end
  end
with parse_members (fuel : nat) (s : string) (acc : list (string * value))
  : option (list (string * value) * string) :=
  match fuel with
  | O => None
  | S fuel =>
    match skip_ws s with
    | String q rest =>
      if byte_val q =? 34 then
        match unquote Plain rest with
        | Some (key, rest) =>
          match skip_ws rest with
          | String colon rest =>
            if byte_val colon =? 58 then
              match parse_value fuel rest with
              | Some (v, rest) =>
                match skip_ws rest with
                | String c rest' =>
                  if byte_val c =? 125 then Some (put key v acc, rest')
                  else if byte_val c =? 44 then parse_members fuel rest' (put key v acc)
                  else None
                | EmptyString => None
                end
              | None => None
              end
            else None
          | EmptyString => None
          end
        | None => None
        end
      else None
    | EmptyString => None
    end
  end.

(** [json.Unmarshal(data, &v)] for [v interface{}]: the whole input is one
    value between optional white space. *)
Definition Unmarshal (data : string) : option value :=
  match parse_value (2 * String.length data + 2) data with
  | Some (v, rest) =>
    match skip_ws rest with
    | EmptyString => Some v
    | _ => None
    end
  | None => None
  end.

(** [json.Marshal(DataResponse{Data: v})]; it has no error to report on
    the values above. *)
Definition Marshal_data (v : value) : option string :=
  Some ("{" +:+ quote "data" +:+ ":" +:+ marshal v +:+ "}").

End json.

#[export] Instance json_codec : Codec := {|
  any := json.value;
  any_string := json.Str;
  Unmarshal := json.Unmarshal;
  Marshal_data := json.Marshal_data
|}.

(** A codec whose encoder can fail, to exercise the error branches of the
    hub: it is [json], except that a string holding a byte above 127 is
    refused. [encoding/json] itself reports no error on such a value. *)
Definition ascii_only (s : string) : bool :=
  forallb (λ c, byte_val c <? 0x80) (list_ascii_of_string s).

#[export] Instance strict_codec : Codec | 100 := {|
  any := json.value;
  any_string := json.Str;
  Unmarshal := json.Unmarshal;
  Marshal_data := λ v,
    match v with
    | json.Str s => if ascii_only s then json.Marshal_data v else None
    | _ => json.Marshal_data v
    end
|}.


(** Whether an invocation sets a status code. *)
Fixpoint sets_status (p : Prog) : bool :=
  match p with
  | Return => false
  | Write b k => sets_status (k (len b, None))
  | WriteHeader _ _ => true
  | HeaderSet _ _ k => sets_status k
  end.

(** A streaming request with the given raw [max_count], if any. *)
Definition request_with (raw : option string) : Request :=
  {| Method := "GET"; Path := "/date/stream";
     RawQuery := match raw with
                 | Some s => {[ "max_count"%string := [s] ]}
                 | None => ∅
                 end |}.


(** ** What a connection still owes the wire *)

Section Future.
Context `{Codec}.

Definition owed_by_consumer (c : Consumer) : list Call :=
  match c with
  | CHolding d => forward d
  | CWritten => [CallFlush]
  | _ => []
  end.

(** The chunks the producer has yet to offer. *)
Definition remaining (p : Producer) : list string :=
  match p with
  | PRunning q => chunks q
  | PSending d k => chunks (k (len d, None))
  | PClosed => []
  end.

(** The wire calls still to come from a state: the rest of the current
    iteration, then the chunks in the relay, then the chunks to be
    written. *)
Definition future (s : Conn) : list Call :=
  owed_by_consumer (consumer s)
  ++ flat_map forward (in_flight s ++ remaining (producer s)).

(** What the channel made at line 253 looks like in every reachable
    state. *)
Definition chan_inv (s : Conn) : Prop :=
  ch_cap (responseChan s) = 0%nat ∧
  ch_buf (responseChan s) = [] ∧
  (ch_closed (responseChan s) = true ↔ producer s = PClosed) ∧
  (consumer s = CReturned → ch_closed (responseChan s) = true).

(** The state the sequential reading ends in. *)
Definition final (p : Prog) (w : ResponseWriter) : Conn :=
  {| producer := PClosed; consumer := CReturned;
     responseChan := close make_chan; conn_w := relay p w |}.

End Future.

(** ** Sample connections *)

(** A live connection that can flush, with nothing written yet. *)
Definition fresh_writer : ResponseWriter :=
  {| w_header := ∅; w_calls := []; w_flusher := true |}.

Definition get (path : string) (q : url.Values) : Request :=
  {| Method := "GET"; Path := path; RawQuery := q |}.

(** A capability that writes a JSON object and then plain text. *)
Definition two_chunks : Endpoint :=
  mkEndpoint (λ _,
    Write ("{" +:+ dquote +:+ "endpoint" +:+ dquote +:+ ":" +:+ dquote +:+ "e" +:+ dquote +:+ "}")
      (λ _, Write "ok" (λ _, Return))).

(** A capability whose second chunk is text with a byte above 127. *)
Definition three_chunks : Endpoint :=
  mkEndpoint (λ _,
    Write "one" (λ _, Write (String (json.chr 233) EmptyString) (λ _, Write "three" (λ _, Return)))).

(** A capability that writes one chunk of plain text. *)
Definition plain_ok : Endpoint := mkEndpoint (λ _, Write "ok" (λ _, Return)).

(** A capability that signals an error: a status and a body. *)
Definition failing : Endpoint :=
  mkEndpoint (λ _, WriteHeader 422 (Write "invalid attribute" (λ _, Return))).

Definition test_hub (e : Endpoint) : Hub := RegisterEndpoint (New DefaultConfig) "test" e.

(** The writer a stream on [fresh_writer] starts with. *)
Definition opened_writer : ResponseWriter :=
  match sseOpen fresh_writer with
  | inl w => w
  | inr w => w
  end.

Definition max_count_is (s : string) : url.Values := {[ "max_count"%string := [s] ]}.

Definition three_ticks : list string :=
  ["2025-02-27T12:31:34Z"; "2025-02-27T12:31:35Z"; "2025-02-27T12:31:36Z"]%string.


Definition hello_world : string :=
  "{" +:+ dquote +:+ "message" +:+ dquote +:+ ":" +:+ dquote +:+ "Hello, World!" +:+ dquote +:+ "}".

Definition utc_chunk : string :=
  "{" +:+ dquote +:+ "UTC" +:+ dquote +:+ ":" +:+ dquote +:+ "2025-02-27T12:31:34Z" +:+ dquote +:+ "}".


(** A heap with one array, and the slice over all of it. *)
Definition sample_world : relay_writer.world :=
  {| relay_writer.mem := {[ 1%positive := list_ascii_of_string "abc" ]};
     relay_writer.sent := [] |}.

Definition sample_slice : relay_writer.slice := relay_writer.mkSlice 1 0 3.

(** ** The resolver's contract as the specification words it *)

Definition is_digit (c : ascii) : bool := in_range 48 57 (byte_val c).

Definition is_sign_char (c : ascii) : bool := (byte_val c =? 43) || (byte_val c =? 45).

Fixpoint all_digits (s : string) : bool :=
  match s with
  | EmptyString => true
  | String c s' => is_digit c && all_digits s'
  end.

(** A value is numeric when it is an optional sign followed by one or more
    decimal digits, and nothing else. *)
Definition numeric (s : string) : bool :=
  match s with
  | EmptyString => false
  | String c s' =>
    if is_sign_char c
    then match s' with EmptyString => false | _ => all_digits s' end
    else all_digits s
  end.

Fixpoint digits_value (acc : Z) (s : string) : Z :=
  match s with
  | EmptyString => acc
  | String c s' => digits_value (acc * 10 + (byte_val c - 48)) s'
  end.

(** The integer a numeric value denotes. *)
Definition int_value (s : string) : Z :=
  match s with
  | EmptyString => 0
  | String c s' =>
    if byte_val c =? 45 then - digits_value 0 s'
    else if byte_val c =? 43 then digits_value 0 s'
    else digits_value 0 s
  end.

(** [resolve(rawValue)] of the specification: empty or missing, 3600;
    non-numeric, 3600; numeric and at most zero, 3600; numeric and positive,
    that value. *)
Definition resolve_spec (rawValue : option string) : Z :=
  match rawValue with
  | None => 3600
  | Some s =>
    if decide (s = EmptyString) then 3600
    else if negb (numeric s) then 3600
    else if int_value s <=? 0 then 3600
    else int_value s
  end.

(** The bytes of a string, as numbers. *)
Definition codes (s : string) : list Z := List.map byte_val (list_ascii_of_string s).

(** ** What a capability asks of its sink besides chunks *)

(** The status codes an invocation sets, in order. *)
Fixpoint statuses (p : Prog) : list Z :=
  match p with
  | Return => []
  | Write b k => statuses (k (len b, None))
  | WriteHeader c k => c :: statuses k
  | HeaderSet _ _ k => statuses k
  end.

(** The header map after the headers an invocation sets. *)
Fixpoint prog_headers (p : Prog) (h : Header) : Header :=
  match p with
  | Return => h
  | Write b k => prog_headers (k (len b, None)) h
  | WriteHeader _ k => prog_headers k h
  | HeaderSet key v k => prog_headers k (<[key := [v]]> h)
  end.

(** The [WriteHeader] calls of a call log, in order. *)
Definition status_calls (cs : list Call) : list Z :=
  omap (λ c, match c with CallWriteHeader s => Some s | _ => None end) cs.

(** What the producer goroutine has yet to run. *)
Definition rest_prog (pr : Producer) : Prog :=
  match pr with
  | PRunning q => q
  | PSending d k => k (len d, None)
  | PClosed => Return
  end.

(** ** The registry: names whose routes collide *)


(** ** Text around an integer *)

(** A rune sequence at which the scan of digits stops: the end of the
    input, or a rune that is neither a digit nor an underscore. *)
Definition stops (rs : list Z) : Prop :=
  match rs with
  | [] => True
  | r :: _ => fmt.is_decimalDigit r = false
  end.

(** Every byte is below 128. *)
Fixpoint is_ascii (s : string) : bool :=
  match s with
  | EmptyString => true
  | String c s' => (byte_val c <? 128) && is_ascii s'
  end.

(** A request that carries the given raw [max_count] and nothing else. *)
Definition with_max_count (s : string) : Request :=
  {| Method := "GET"; Path := "/date/stream"; RawQuery := {[ "max_count"%string := [s] ]} |}.

(** ** hub.go: WriteError *)

Record Error := mkError { Status : string; Title : string; Detail : string }.

Record ErrorResponse := mkErrorResponse { Errors : list Error }.

(** [fmt.Sprintf("%d", status)]. *)
Definition Sprintf_d (status : Z) : string := json.Itoa status.

(** The encoding of an [Error]: its three string fields under their tags,
    in declaration order, each quoted as the encoder quotes a string. *)
Definition Marshal_Error (e : Error) : string :=
  "{" +:+ json.quote "status" +:+ ":" +:+ json.quote (Status e)
  +:+ "," +:+ json.quote "title" +:+ ":" +:+ json.quote (Title e)
  +:+ "," +:+ json.quote "detail" +:+ ":" +:+ json.quote (Detail e) +:+ "}".

(** The encoding of an [ErrorResponse] whose slice is not nil. *)
Definition Marshal_ErrorResponse (r : ErrorResponse) : string :=
  "{" +:+ json.quote "errors" +:+ ":["
  +:+ json.sepBy "," (List.map Marshal_Error (Errors r)) +:+ "]}".

(** The response built at lines 55-63. *)
Definition error_response (status : Z) (title detail : string) : ErrorResponse :=
  {| Errors := [ {| Status := Sprintf_d status; Title := title; Detail := detail |} ] |}.

(** [WriteError(w, status, title, detail)] as a capability calls it on its
    sink, followed by [k], the rest of the capability. The encoder makes one
    write of the encoding and a newline. [on_error] stands for what follows
    a failed write: the log entry, [http.Error] on the sink, and the rest of
    the capability. *)
Definition WriteError (status : Z) (title detail : string) (on_error k : Prog) : Prog :=
  HeaderSet "Content-Type" "application/json"
    (WriteHeader status
       (Write (Marshal_ErrorResponse (error_response status title detail) +:+ newline)
          (λ res, match res.2 with
                  | Some _ => on_error
                  | None => k
                  end))).

(** ** hub.go: a sequence of writes on the relay writer *)

(** The world after [Write] was called on each slice in turn. *)
Definition write_all (bs : list relay_writer.slice) (σ : relay_writer.world)
  : relay_writer.world :=
  foldl (λ σ b, (relay_writer.Write b σ).2) σ bs.

(** A capability that reports an error and returns. *)
Definition erroring : Endpoint :=
  mkEndpoint (λ _, WriteError 422 "Invalid Attribute" "too short" Return Return).

(** A second window on the array of [sample_world]: its last two bytes. *)
Definition sample_tail : relay_writer.slice := relay_writer.mkSlice 1 1 2.

(** * Properties *)

(** ** The event-count resolver *)

Example Sscanf_plain : fmt.Sscanf_d "42" = Some 42.
Proof. reflexivity. Qed.
Example Sscanf_text : fmt.Sscanf_d "abc" = None.
Proof. reflexivity. Qed.
Example Sscanf_neg : fmt.Sscanf_d "-3" = Some (-3).
Proof. reflexivity. Qed.
Example Sscanf_space : fmt.Sscanf_d "  +7" = Some 7.
Proof. reflexivity. Qed.
Example Sscanf_under : fmt.Sscanf_d "1_000" = None.
Proof. reflexivity. Qed.
Example Sscanf_max : fmt.Sscanf_d "9223372036854775807" = Some 9223372036854775807.
Proof. vm_compute. reflexivity. Qed.
Example Sscanf_overflow : fmt.Sscanf_d "9223372036854775808" = None.
Proof. vm_compute. reflexivity. Qed.
Example Sscanf_min : fmt.Sscanf_d "-9223372036854775808" = Some (-9223372036854775808).
Proof. vm_compute. reflexivity. Qed.

Lemma Sscanf_empty : fmt.Sscanf_d EmptyString = None.
Proof. reflexivity. Qed.

Lemma Get_missing (q : url.Values) (key : string) :
  q !! key = None → url.Get q key = EmptyString.
Proof. intros Hq. unfold url.Get. by rewrite Hq. Qed.

Lemma Get_Set (q : url.Values) (key value : string) :
  url.Get (url.Set_ q key value) key = value.
Proof. unfold url.Get, url.Set_. by rewrite lookup_insert_eq. Qed.

(** *** The scan on plainly numeric values *)

Ltac decide_cmp :=
  repeat match goal with
         | |- context [?a =? ?b] => destruct (Z.eqb_spec a b); try lia
         | |- context [?a <=? ?b] => destruct (Z.leb_spec a b); try lia
         | |- context [?a <? ?b] => destruct (Z.ltb_spec a b); try lia
         end.

Lemma runes_ascii_cons (c : ascii) (s : string) :
  byte_val c < 128 → runes (String c s) = byte_val c :: runes s.
Proof.
  intros Hc. cbn [runes]. cbv zeta.
  destruct (Z.ltb_spec (byte_val c) 128); [done|lia].
Qed.

Lemma is_digit_range (c : ascii) : is_digit c = true → 48 ≤ byte_val c ≤ 57.
Proof. unfold is_digit, in_range. intros Hd. apply andb_true_iff in Hd as [H1 H2]. lia. Qed.

Lemma all_digits_cons (c : ascii) (s : string) :
  all_digits (String c s) = true → 48 ≤ byte_val c ≤ 57 ∧ all_digits s = true.
Proof.
  simpl. intros Hd. apply andb_true_iff in Hd as [Hc Hs].
  apply is_digit_range in Hc. done.
Qed.

Lemma codes_cons (c : ascii) (s : string) : codes (String c s) = byte_val c :: codes s.
Proof. reflexivity. Qed.

Lemma runes_digits (s : string) : all_digits s = true → runes s = codes s.
Proof.
  induction s as [|c s IH]; [done|]. intros Hd.
  apply all_digits_cons in Hd as [Hc Hs].
  rewrite runes_ascii_cons by lia. by rewrite codes_cons, IH.
Qed.

Lemma accept_all_digits (s : string) :
  all_digits s = true → fmt.accept_all fmt.is_decimalDigit (codes s) = codes s.
Proof.
  induction s as [|c s IH]; [done|]. intros Hd.
  apply all_digits_cons in Hd as [Hc Hs].
  rewrite codes_cons. cbn [fmt.accept_all]. rewrite IH by done.
  unfold fmt.is_decimalDigit, in_range. by decide_cmp.
Qed.

Lemma digits_value_ge (s : string) (acc : Z) :
  all_digits s = true → 0 ≤ acc → acc ≤ digits_value acc s.
Proof.
  revert acc. induction s as [|c s IH]; intros acc Hd Hacc; simpl; [lia|].
  apply all_digits_cons in Hd as [Hc Hs].
  specialize (IH (acc * 10 + (byte_val c - 48)) Hs). lia.
Qed.

Lemma ParseUint_loop_digits (s : string) (n : Z) :
  all_digits s = true → 0 ≤ n → digits_value n s ≤ 2 ^ 63 →
  strconv.ParseUint_loop n (codes s) = inr (digits_value n s).
Proof.
  revert n. induction s as [|c s IH]; intros n Hd Hn Hv; [done|].
  apply all_digits_cons in Hd as [Hc Hs].
  pose proof (digits_value_ge s (n * 10 + (byte_val c - 48)) Hs ltac:(lia)) as Hge.
  cbn [digits_value] in Hv. rewrite codes_cons. cbn [strconv.ParseUint_loop]. cbv zeta.
  change (strconv.maxUint64 / 10 + 1) with 1844674407370955162.
  change strconv.maxUint64 with 18446744073709551615.
  change (2 ^ 63) with 9223372036854775808 in Hv.
  unfold in_range. decide_cmp. simpl. apply IH; [done|lia|done].
Qed.

Lemma all_digits_nonempty (s : string) :
  s ≠ EmptyString → all_digits s = true → ∃ c s', s = String c s' ∧ 48 ≤ byte_val c ≤ 57.
Proof.
  destruct s as [|c s']; [done|]. intros _ Hd.
  apply all_digits_cons in Hd as [Hc _]. eauto.
Qed.

Lemma ParseUint_digits (s : string) :
  s ≠ EmptyString → all_digits s = true → digits_value 0 s ≤ 2 ^ 63 →
  strconv.ParseUint (codes s) = inr (digits_value 0 s).
Proof.
  intros Hne Hd Hv. destruct (all_digits_nonempty s Hne Hd) as (c & s' & -> & Hc).
  unfold strconv.ParseUint. rewrite codes_cons. rewrite <- codes_cons.
  by apply ParseUint_loop_digits.
Qed.

Lemma SkipSpace_token (r : Z) (rest : list Z) :
  43 ≤ r ≤ 57 → fmt.SkipSpace (r :: rest) = Some (r :: rest).
Proof.
  intros Hr. simpl. unfold fmt.isSpace, in_range.
  destruct (r =? 13) eqn:E13; [apply Z.eqb_eq in E13; lia|]. simpl.
  by decide_cmp.
Qed.

Lemma scanInt_unsigned (s : string) :
  s ≠ EmptyString → all_digits s = true → digits_value 0 s < 2 ^ 63 →
  fmt.scanInt (codes s) = Some (digits_value 0 s).
Proof.
  intros Hne Hd Hv.
  destruct (all_digits_nonempty s Hne Hd) as (c & s' & -> & Hc).
  unfold fmt.scanInt. rewrite codes_cons, SkipSpace_token by lia.
  assert (fmt.is_sign (byte_val c) = false) as Hsign.
  { unfold fmt.is_sign. by decide_cmp. }
  rewrite Hsign. rewrite <- codes_cons, (accept_all_digits _ Hd).
  rewrite codes_cons at 1. rewrite app_nil_l.
  unfold strconv.ParseInt.
  unfold fmt.is_sign in Hsign. apply orb_false_iff in Hsign as [E1 E2].
  rewrite E1, E2. cbn [orb]. rewrite <- codes_cons.
  rewrite ParseUint_digits by (done || lia).
  change strconv.cutoff with (2 ^ 63). cbn [negb andb].
  destruct (Z.leb_spec (2 ^ 63) (digits_value 0 (String c s'))); [lia|]. done.
Qed.

Lemma scanInt_plus (s : string) :
  s ≠ EmptyString → all_digits s = true → digits_value 0 s < 2 ^ 63 →
  fmt.scanInt (43 :: codes s) = Some (digits_value 0 s).
Proof.
  intros Hne Hd Hv.
  unfold fmt.scanInt. rewrite SkipSpace_token by lia.
  change (fmt.is_sign 43) with true. cbv iota.
  rewrite (accept_all_digits _ Hd).
  destruct (all_digits_nonempty s Hne Hd) as (c & s' & -> & Hc).
  rewrite codes_cons at 1. rewrite <- codes_cons.
  change ([43] ++ codes (String c s')) with (43 :: codes (String c s')).
  unfold strconv.ParseInt. change (43 =? 45) with false. change (43 =? 43) with true.
  cbn [orb]. rewrite ParseUint_digits by (done || lia).
  change strconv.cutoff with (2 ^ 63). cbn [negb andb].
  destruct (Z.leb_spec (2 ^ 63) (digits_value 0 (String c s'))); [lia|]. done.
Qed.

Lemma scanInt_minus (s : string) :
  s ≠ EmptyString → all_digits s = true → digits_value 0 s ≤ 2 ^ 63 →
  fmt.scanInt (45 :: codes s) = Some (- digits_value 0 s).
Proof.
  intros Hne Hd Hv.
  unfold fmt.scanInt. rewrite SkipSpace_token by lia.
  change (fmt.is_sign 45) with true. cbv iota.
  rewrite (accept_all_digits _ Hd).
  destruct (all_digits_nonempty s Hne Hd) as (c & s' & -> & Hc).
  rewrite codes_cons at 1. rewrite <- codes_cons.
  change ([45] ++ codes (String c s')) with (45 :: codes (String c s')).
  unfold strconv.ParseInt. change (45 =? 45) with true. change (45 =? 43) with false.
  cbn [orb]. rewrite ParseUint_digits by (done || lia).
  change strconv.cutoff with (2 ^ 63). cbn [negb andb].
  destruct (Z.ltb_spec (2 ^ 63) (digits_value 0 (String c s'))); [lia|]. done.
Qed.

(** A numeric value within the 64-bit range scans to the integer it
    denotes. *)
Lemma Sscanf_numeric (s : string) :
  numeric s = true →
  - 2 ^ 63 ≤ int_value s < 2 ^ 63 →
  fmt.Sscanf_d s = Some (int_value s).
Proof.
  destruct s as [|c s']; [done|].
  unfold numeric, int_value, is_sign_char, fmt.Sscanf_d.
  destruct (byte_val c =? 45) eqn:Eminus; [|destruct (byte_val c =? 43) eqn:Eplus].
  - apply Z.eqb_eq in Eminus. rewrite orb_true_r. intros Hd Hv.
    assert (s' ≠ EmptyString) as Hne by (by destruct s').
    assert (all_digits s' = true) as Hall by (by destruct s').
    rewrite runes_ascii_cons by lia. rewrite (runes_digits s' Hall), Eminus.
    apply scanInt_minus; [done|done|lia].
  - apply Z.eqb_eq in Eplus. cbn [orb]. intros Hd Hv.
    assert (s' ≠ EmptyString) as Hne by (by destruct s').
    assert (all_digits s' = true) as Hall by (by destruct s').
    rewrite runes_ascii_cons by lia. rewrite (runes_digits s' Hall), Eplus.
    apply scanInt_plus; [done|done|lia].
  - cbn [orb]. intros Hd Hv. rewrite (runes_digits _ Hd).
    apply scanInt_unsigned; [done|done|lia].
Qed.

(** On a numeric value within the 64-bit range, [getMaxCount] is the
    resolver of the specification. *)
Lemma getMaxCount_numeric (r : Request) (s : string) :
  url.Get (Query r) "max_count" = s →
  numeric s = true →
  - 2 ^ 63 ≤ int_value s < 2 ^ 63 →
  getMaxCount r = resolve_spec (Some s).
Proof.
  intros Hget Hnum Hv. unfold getMaxCount, resolve_spec. rewrite Hget.
  case_decide; [done|]. rewrite Hnum. cbn [negb].
  by rewrite (Sscanf_numeric s Hnum Hv).
Qed.

(** *** The decimal rendering of a limit scans back to it *)

Lemma byte_val_chr (x : Z) : 0 ≤ x < 256 → byte_val (json.chr x) = x.
Proof.
  intros Hx. unfold byte_val, json.chr.
  rewrite N_ascii_embedding; lia.
Qed.

Lemma digits_all_digits (fuel : nat) (n : Z) (acc : string) :
  0 ≤ n → all_digits acc = true → all_digits (json.digits fuel n acc) = true.
Proof.
  revert n acc. induction fuel as [|fuel IH]; intros n acc Hn Hacc.
  - cbn [json.digits all_digits]. rewrite Hacc, andb_true_r.
    unfold is_digit, in_range. rewrite byte_val_chr by (pose proof (Z.mod_pos_bound n 10); lia).
    pose proof (Z.mod_pos_bound n 10 ltac:(lia)). by decide_cmp.
  - cbn [json.digits].
    assert (all_digits (String (json.chr (48 + n mod 10)) acc) = true) as Hacc'.
    { cbn [all_digits]. rewrite Hacc, andb_true_r.
      unfold is_digit, in_range.
      pose proof (Z.mod_pos_bound n 10 ltac:(lia)).
      rewrite byte_val_chr by lia. by decide_cmp. }
    destruct (n <? 10); [done|].
    apply IH; [|done]. apply Z.div_pos; lia.
Qed.

Lemma digits_nonempty (fuel : nat) (n : Z) (acc : string) :
  json.digits fuel n acc ≠ EmptyString.
Proof.
  revert n acc. induction fuel as [|fuel IH]; intros n acc; cbn [json.digits]; [done|].
  destruct (n <? 10); [done|apply IH].
Qed.

Lemma digits_value_digits (fuel : nat) (n : Z) (acc : string) :
  0 ≤ n → n < 10 ^ Z.of_nat (S fuel) →
  ∀ a, ∃ D, 0 ≤ D ∧ digits_value a (json.digits fuel n acc) = digits_value (a * 10 ^ D + n) acc.
Proof.
  revert n acc. induction fuel as [|fuel IH]; intros n acc Hn Hlt a.
  - change (10 ^ Z.of_nat 1) with 10 in Hlt.
    exists 1. split; [lia|]. cbn [json.digits digits_value].
    rewrite Z.mod_small by lia. rewrite byte_val_chr by lia.
    f_equal. lia.
  - cbn [json.digits]. destruct (Z.ltb_spec n 10) as [Hsmall|Hbig].
    + exists 1. split; [lia|]. cbn [digits_value].
      rewrite Z.mod_small by lia. rewrite byte_val_chr by lia.
      f_equal. lia.
    + assert (n / 10 < 10 ^ Z.of_nat (S fuel)) as Hdiv.
      { apply Z.div_lt_upper_bound; [lia|].
        rewrite <- Z.pow_succ_r by lia. by rewrite <- Nat2Z.inj_succ. }
      destruct (IH (n / 10) (String (json.chr (48 + n mod 10)) acc)
                  ltac:(apply Z.div_pos; lia) Hdiv a) as (D & HD & Heq).
      exists (D + 1). split; [lia|]. rewrite Heq. cbn [digits_value].
      pose proof (Z.mod_pos_bound n 10 ltac:(lia)).
      rewrite byte_val_chr by lia. f_equal.
      rewrite Z.pow_add_r by lia. pose proof (Z.div_mod n 10 ltac:(lia)). lia.
Qed.

Lemma log2_fuel (n : Z) : 0 < n → n < 10 ^ Z.of_nat (S (Z.to_nat (Z.log2 n))).
Proof.
  intros Hn. pose proof (Z.log2_nonneg n) as Hl.
  rewrite Nat2Z.inj_succ, Z2Nat.id by done.
  pose proof (Z.log2_spec n Hn) as [_ Hup].
  eapply Z.lt_le_trans; [exact Hup|].
  apply Z.pow_le_mono_l. lia.
Qed.

(** [strconv.Itoa] of a positive [int] is numeric and denotes it, so the
    query [max_count=k] scans to [k]. *)
Lemma Sscanf_Itoa (k : Z) :
  0 < k < 2 ^ 63 → fmt.Sscanf_d (json.Itoa k) = Some k.
Proof.
  intros Hk. unfold json.Itoa. destruct (Z.ltb_spec k 0); [lia|].
  set (s := json.digits (Z.to_nat (Z.log2 k)) k EmptyString).
  assert (all_digits s = true) as Hall by (apply digits_all_digits; [lia|done]).
  assert (s ≠ EmptyString) as Hne by apply digits_nonempty.
  destruct (digits_value_digits (Z.to_nat (Z.log2 k)) k EmptyString ltac:(lia)
              (log2_fuel k ltac:(lia)) 0) as (D & _ & Hval).
  fold s in Hval. cbn [digits_value] in Hval. rewrite Z.mul_0_l, Z.add_0_l in Hval.
  unfold fmt.Sscanf_d. rewrite (runes_digits s Hall).
  rewrite scanInt_unsigned by (done || lia). by rewrite Hval.
Qed.


Example Sscanf_prefix : fmt.Sscanf_d "5abc" = Some 5.
Proof. reflexivity. Qed.

(** C2, as stated, fails on a value that starts with digits and goes on
    with other text: it is not numeric, so the contract gives 3600, but the
    scan reads the leading integer and [getMaxCount] returns it. *)
Lemma getMaxCount_numeric_prefix :
  numeric "5abc" = false ∧
  resolve_spec (Some "5abc"%string) = 3600 ∧
  getMaxCount (request_with (Some "5abc"%string)) = 5 ∧
  getMaxCount (request_with (Some "5abc"%string)) ≠ resolve_spec (Some "5abc"%string).
Proof. repeat split. vm_compute. discriminate. Qed.

(** C2, amended. [getMaxCount] returns 3600 when [max_count] is missing or
    empty; otherwise the value is scanned as [fmt.Sscanf] with verb [d]
    does, reading a leading integer and leaving the rest unread: the result
    is 3600 when the scan fails, 3600 when the scanned integer is zero or
    negative, and the scanned integer when it is positive. A numeric value
    within the 64-bit range scans to the integer it denotes, and on it
    [getMaxCount] agrees with the contract as the specification words
    it. *)
Theorem getMaxCount_contract (r : Request) :
  let raw := url.Get (Query r) "max_count" in
  (Query r !! "max_count"%string = None → getMaxCount r = 3600) ∧
  (raw = EmptyString → getMaxCount r = 3600) ∧
  (fmt.Sscanf_d raw = None → getMaxCount r = 3600) ∧
  (∀ n, fmt.Sscanf_d raw = Some n → n ≤ 0 → getMaxCount r = 3600) ∧
  (∀ n, fmt.Sscanf_d raw = Some n → 0 < n → getMaxCount r = n) ∧
  (numeric raw = true → - 2 ^ 63 ≤ int_value raw < 2 ^ 63 →
   fmt.Sscanf_d raw = Some (int_value raw) ∧ getMaxCount r = resolve_spec (Some raw)).
Proof.
  intros raw.
  assert (numeric raw = true → - 2 ^ 63 ≤ int_value raw < 2 ^ 63 →
          fmt.Sscanf_d raw = Some (int_value raw) ∧
          getMaxCount r = resolve_spec (Some raw)) as Hnum.
  { intros Hn Hv. split; [by apply Sscanf_numeric|by apply getMaxCount_numeric]. }
  unfold getMaxCount. fold raw.
  split; [|split; [|split; [|split; [|split; [|exact Hnum]]]]].
  - intros Hq. subst raw. rewrite (Get_missing _ _ Hq). by case_decide.
  - intros ->. by case_decide.
  - intros ->. by case_decide.
  - intros n -> Hn. case_decide; [done|].
    destruct (Z.leb_spec n 0); [done|lia].
  - intros n Hs Hn. case_decide as Hraw.
    + rewrite Hraw in Hs. discriminate.
    + rewrite Hs. destruct (Z.leb_spec n 0); [lia|done].
Qed.

Lemma getMaxCount_contract_witness :
  getMaxCount (request_with None) = 3600 ∧
  getMaxCount (request_with (Some EmptyString)) = 3600 ∧
  getMaxCount (request_with (Some "abc"%string)) = 3600 ∧
  getMaxCount (request_with (Some "-4"%string)) = 3600 ∧
  getMaxCount (request_with (Some "5"%string)) = 5.
Proof.
  split; [|split; [|split; [|split]]].
  - apply (proj1 (getMaxCount_contract (request_with None))). reflexivity.
  - apply (proj1 (proj2 (getMaxCount_contract (request_with (Some EmptyString))))).
    reflexivity.
  - apply (proj1 (proj2 (proj2 (getMaxCount_contract (request_with (Some "abc"%string)))))).
    reflexivity.
  - apply (proj1 (proj2 (proj2 (proj2
             (getMaxCount_contract (request_with (Some "-4"%string)))))) (-4));
      [reflexivity | lia].
  - apply (proj1 (proj2 (proj2 (proj2 (proj2
             (getMaxCount_contract (request_with (Some "5"%string))))))) 5);
      [reflexivity | lia].
Defined.

(** ** The registry *)

Lemma HandleFunc_Some pattern h mux m' :
  HandleFunc pattern h mux = Some m' →
  ∃ m, mux = Some m ∧ m !! pattern = None ∧ m' = <[pattern := h]> m.
Proof.
  destruct mux as [m|]; simpl; [|done].
  destruct (m !! pattern) eqn:E; [done|].
  intros [= <-]. eauto.
Qed.

Lemma insert_keeps (m : ServeMux) (k k' : string) (h h' : Route) :
  m !! k = None → m !! k' = Some h' → <[k := h]> m !! k' = Some h'.
Proof.
  intros Hk Hk'. rewrite lookup_insert_ne; [done|]. intros ->. congruence.
Qed.

(** Every entry of the registry is bound to its two routes, whenever the
    route table can be built. *)
Lemma routes_bind (p : Hub) (mux : ServeMux) (N : string) (e : Endpoint) :
  routes p = Some mux →
  endpoints p !! N = Some e →
  mux !! ("/" +:+ N) = Some (RouteREST e) ∧
  mux !! ("/" +:+ N +:+ "/stream") = Some (RouteSSE e).
Proof.
  unfold routes. revert mux N e.
  apply (map_fold_weak_ind
    (λ (r : option ServeMux) (m : gmap string Endpoint),
       ∀ mux N e, r = Some mux → m !! N = Some e →
         mux !! ("/" +:+ N) = Some (RouteREST e) ∧
         mux !! ("/" +:+ N +:+ "/stream") = Some (RouteSSE e))).
  - intros mux N e _ HN. by rewrite lookup_empty in HN.
  - intros i x m r Hi IH mux N e Hr HN.
    unfold register_routes in Hr.
    apply HandleFunc_Some in Hr as (m1 & Hm1 & Hfresh1 & ->).
    apply HandleFunc_Some in Hm1 as (m0 & -> & Hfresh0 & ->).
    destruct (decide (i = N)) as [->|Hne].
    + rewrite lookup_insert_eq in HN. injection HN as ->.
      split.
      * apply insert_keeps; [done|]. by rewrite lookup_insert_eq.
      * by rewrite lookup_insert_eq.
    + rewrite lookup_insert_ne in HN by done.
      destruct (IH m0 N e eq_refl HN) as [H1 H2].
      split; apply insert_keeps; try done; by apply insert_keeps.
Qed.

(** ** The streaming bridge *)

Lemma wire_app (l1 l2 : list Call) : wire (l1 ++ l2) = wire l1 ++ wire l2.
Proof. unfold wire. induction l1 as [|c l1 IH]; simpl; [done|]. destruct (is_wire c); simpl; congruence. Qed.

Lemma bodies_app (l1 l2 : list Call) : bodies (l1 ++ l2) = bodies l1 ++ bodies l2.
Proof. unfold bodies. apply omap_app. Qed.

Lemma bodies_wire (l : list Call) : bodies (wire l) = bodies l.
Proof.
  induction l as [|c l IH]; [done|].
  destruct c; cbn; unfold bodies, wire in IH; cbn in IH; rewrite ?IH; done.
Qed.

Section BridgeProofs.
Context `{Codec}.

Lemma forward_wire (d : string) : wire (forward d) = forward d.
Proof. unfold forward. by destruct (Marshal (wrap d)). Qed.

Lemma flat_map_forward_wire (l : list string) :
  wire (flat_map forward l) = flat_map forward l.
Proof.
  induction l as [|d l IH]; simpl; [done|].
  by rewrite wire_app, forward_wire, IH.
Qed.


(** A step moves calls from what is owed to the log, and changes nothing
    else of their sequence. *)
Lemma step_future (s s' : Conn) :
  step s s' →
  wire (w_calls (conn_w s')) ++ future s' = wire (w_calls (conn_w s)) ++ future s.
Proof.
  destruct s as [p c ch w].
  unfold future, in_flight.
  inversion 1; simpl in *; subst; simpl;
    rewrite ?wire_app, ?app_nil_r, <- ?app_assoc; simpl; try done.
  - match goal with H : ch_buf _ = [] |- _ => rewrite H end. done.
  - match goal with H : ch_buf _ = _ :: _ |- _ => rewrite H end. done.
  - unfold forward. match goal with H : Marshal _ = Some _ |- _ => rewrite H end.
    done.
  - unfold forward at 2. match goal with H : Marshal _ = None |- _ => rewrite H end.
    done.
Qed.

Lemma chan_inv_step (s s' : Conn) : chan_inv s → step s s' → chan_inv s'.
Proof.
  destruct s as [p c ch w]. unfold chan_inv. simpl.
  intros (Hcap & Hbuf & Hclosed & Hret).
  inversion 1; simpl in *; subst; simpl; repeat split; try done; try congruence; try lia.
  all: try (intros Hc; apply Hclosed in Hc; congruence).
  all: try (intros Hc; specialize (Hret Hc); apply Hclosed in Hret; congruence).
Qed.

Lemma chan_inv_start (p : Prog) (w : ResponseWriter) :
  chan_inv (mkConn (PRunning p) CReceiving make_chan w).
Proof. unfold chan_inv. simpl. repeat split; done. Qed.

Lemma reachable_inv (s0 s : Conn) :
  rtc step s0 s → chan_inv s0 →
  chan_inv s ∧
  wire (w_calls (conn_w s)) ++ future s = wire (w_calls (conn_w s0)) ++ future s0.
Proof.
  induction 1 as [s|s1 s2 s3 Hstep _ IH]; [done|].
  intros Hinv. pose proof (chan_inv_step _ _ Hinv Hstep) as Hinv2.
  destruct (IH Hinv2) as [? ->]. split; [done|]. by apply step_future.
Qed.

Lemma future_finished (s : Conn) : chan_inv s → finished s → future s = [].
Proof.
  destruct s as [p c ch w]. unfold chan_inv, finished, future, in_flight. simpl.
  intros (_ & -> & Hclosed & Hret) ->. rewrite (proj1 Hclosed (Hret eq_refl)). done.
Qed.

(** From a state where the loop waits to receive, the sequential reading
    is one of the interleavings, and it ends. *)
Lemma relay_run_from (p : Prog) (ch : Chan) (w : ResponseWriter) :
  ch_buf ch = [] →
  rtc step (mkConn (PRunning p) CReceiving ch w)
           (mkConn PClosed CReturned (close ch) (relay p w)).
Proof.
  intros Hbuf. revert w. induction p as [|b k IH|c k IH|key v k IH]; intros w.
  - apply rtc_l with (mkConn PClosed CReceiving (close ch) w).
    { by apply (step_close (mkConn (PRunning Return) CReceiving ch w)). }
    apply rtc_once.
    by apply (step_exit (mkConn PClosed CReceiving (close ch) w)).
  - eapply rtc_l.
    { by apply (step_write (mkConn (PRunning (Write b k)) CReceiving ch w) b k). }
    eapply rtc_l.
    { by apply (step_handoff (mkConn (PSending b k) CReceiving ch w) b k). }
    simpl. unfold set_consumer, set_producer. simpl. unfold forward.
    destruct (Marshal (wrap b)) as [j|] eqn:E.
    + eapply rtc_l.
      { by apply (step_frame (mkConn _ (CHolding b) ch w) b j). }
      eapply rtc_l.
      { by apply (step_flush (mkConn _ CWritten ch _)). }
      simpl. unfold set_w, set_consumer, call. simpl.
      rewrite <- app_assoc. apply IH.
    + eapply rtc_l.
      { by apply (step_drop (mkConn _ (CHolding b) ch w) b). }
      simpl. unfold set_consumer. simpl. rewrite app_nil_r.
      destruct w. apply IH.
  - eapply rtc_l.
    { by apply (step_writeheader (mkConn (PRunning (WriteHeader c k)) CReceiving ch w) c k). }
    apply IH.
  - eapply rtc_l.
    { by apply (step_headerset (mkConn (PRunning (HeaderSet key v k)) CReceiving ch w) key v k). }
    apply IH.
Qed.

Lemma relay_run (p : Prog) (w : ResponseWriter) :
  rtc step (mkConn (PRunning p) CReceiving make_chan w) (final p w).
Proof. by apply relay_run_from. Qed.

(** The loop finishes the iteration it is in. *)
Lemma consumer_settles (s : Conn) :
  consumer s ≠ CReturned →
  ∃ w, rtc step s (mkConn (producer s) CReceiving (responseChan s) w).
Proof.
  destruct s as [p c ch w]. simpl. intros Hc.
  destruct c as [|d| |]; [by exists w| | |done].
  - destruct (Marshal (wrap d)) as [j|] eqn:E.
    + eexists. eapply rtc_l.
      { by apply (step_frame (mkConn p (CHolding d) ch w) d j). }
      apply rtc_once. by apply (step_flush (mkConn p CWritten ch _)).
    + exists w. apply rtc_once. by apply (step_drop (mkConn p (CHolding d) ch w) d).
  - eexists. apply rtc_once. by apply (step_flush (mkConn p CWritten ch w)).
Qed.

(** No reachable state is a dead end: the connection can always be run to
    the return of the handler. *)
Lemma can_finish (s : Conn) : chan_inv s → ∃ s', rtc step s s' ∧ finished s'.
Proof.
  intros Hinv.
  assert (consumer s = CReturned ∨ consumer s ≠ CReturned) as [Hret|Hrun]
    by (destruct (consumer s); eauto).
  { by exists s. }
  destruct (consumer_settles s Hrun) as [w Hsettle].
  destruct Hinv as (_ & Hbuf & Hclosed & _).
  destruct (producer s) as [p|d k|] eqn:Hp.
  - eexists. split; [|shelve].
    etrans; [exact Hsettle|]. by apply relay_run_from.
    Unshelve. done.
  - destruct (consumer_settles
                (mkConn (PRunning (k (len d, None))) (CHolding d) (responseChan s) w))
      as [w' Hsettle']; [done|]. simpl in Hsettle'.
    eexists. split; [|shelve].
    etrans; [exact Hsettle|].
    eapply rtc_l.
    { by apply (step_handoff (mkConn (PSending d k) CReceiving (responseChan s) w) d k). }
    etrans; [exact Hsettle'|]. by apply relay_run_from.
    Unshelve. done.
  - exists (mkConn PClosed CReturned (responseChan s) w). split; [|done].
    etrans; [exact Hsettle|]. apply rtc_once.
    apply (step_exit (mkConn PClosed CReceiving (responseChan s) w)); simpl; try done.
    by apply Hclosed.
Qed.

End BridgeProofs.

Section StreamClaims.
Context `{Codec}.

Lemma sseStart_inv (e : Endpoint) (w : ResponseWriter) (r : Request) :
  chan_inv (sseStart e w r).
Proof. apply chan_inv_start. Qed.

Lemma sseStart_future (e : Endpoint) (w : ResponseWriter) (r : Request) :
  future (sseStart e w r) = flat_map forward (chunks (HandleSSE e r)).
Proof. reflexivity. Qed.

Lemma sseStart_run (e : Endpoint) (w : ResponseWriter) (r : Request) :
  rtc step (sseStart e w r) (final (HandleSSE e r) w).
Proof. apply relay_run. Qed.

(** C5. On the streaming route the chunks reach the client in the order
    the capability wrote them: at every moment the wire calls made so far
    are a prefix of the frames of the chunks in writing order, and when
    the handler has returned they are exactly those frames. A chunk is
    forwarded as one write of [data: <envelope>] and a blank line,
    followed by a flush; and every reachable state can be run on to the
    return of the handler. *)
Theorem stream_order (e : Endpoint) (w : ResponseWriter) (r : Request) (s : Conn) :
  rtc step (sseStart e w r) s →
  (∃ rest, wire (w_calls w) ++ flat_map forward (chunks (HandleSSE e r))
           = wire (w_calls (conn_w s)) ++ rest) ∧
  (finished s →
   wire (w_calls (conn_w s))
   = wire (w_calls w) ++ flat_map forward (chunks (HandleSSE e r))) ∧
  (∀ d, match Marshal (wrap d) with
        | Some j => forward d = [CallWrite ("data: " +:+ j +:+ newline +:+ newline); CallFlush]
        | None => forward d = []
        end) ∧
  (∃ s', rtc step s s' ∧ finished s').
Proof.
  intros Hrun.
  destruct (reachable_inv _ _ Hrun (sseStart_inv e w r)) as [Hinv Heq].
  rewrite sseStart_future in Heq. simpl in Heq.
  split; [|split; [|split]].
  - exists (future s). done.
  - intros Hfin. rewrite (future_finished _ Hinv Hfin), app_nil_r in Heq. done.
  - intros d. unfold forward. by destruct (Marshal (wrap d)).
  - by apply can_finish.
Qed.

(** C6. The relay channel never buffers: in every reachable state at most
    one chunk is in flight, the one offered by the blocked producer; and
    a blocked producer stays blocked under every step except the hand-off
    of its chunk to a draining loop that is waiting to receive, that is,
    one done with the previous chunk. *)
Theorem relay_one_in_flight (e : Endpoint) (w : ResponseWriter) (r : Request) (s : Conn) :
  rtc step (sseStart e w r) s →
  (List.length (in_flight s) ≤ 1)%nat ∧
  ch_buf (responseChan s) = [] ∧
  (∀ d k s', producer s = PSending d k → step s s' →
     (producer s' = PSending d k ∧ in_flight s' = [d]) ∨
     (consumer s = CReceiving ∧ consumer s' = CHolding d ∧
      producer s' = PRunning (k (len d, None)) ∧ in_flight s' = [])).
Proof.
  intros Hrun.
  destruct (reachable_inv _ _ Hrun (sseStart_inv e w r)) as [Hinv _].
  destruct Hinv as (Hcap & Hbuf & _ & _).
  split; [|split; [done|]].
  - unfold in_flight. rewrite Hbuf. destruct (producer s); simpl; lia.
  - intros d k s' Hp Hstep. unfold in_flight.
    destruct s as [p c ch w0]. simpl in *. subst p.
    inversion Hstep; simpl in *; subst; simpl; try congruence; try lia.
    all: rewrite Hbuf; simpl.
    all: first [ by left
               | right; match goal with
                        | Heq : PSending _ _ = PSending _ _ |- _ =>
                          injection Heq as <- <-
                        end; done ].
Qed.

(** C8. When marshalling the envelope of a chunk fails, no frame is
    written for that chunk and the loop goes back to receiving with the
    connection untouched; the stream is not ended by it: every reachable
    state can still be run to the return of the handler, and then the wire
    carries the frames of the chunks before and after the failed one. *)
Theorem drain_skips_failed_chunk (e : Endpoint) (w : ResponseWriter) (r : Request)
    (s : Conn) (l1 l2 : list string) (d : string) :
  rtc step (sseStart e w r) s →
  chunks (HandleSSE e r) = l1 ++ d :: l2 →
  Marshal (wrap d) = None →
  forward d = [] ∧
  (∀ s1 s2, consumer s1 = CHolding d → step s1 s2 →
     consumer s2 = CHolding d ∨
     (consumer s2 = CReceiving ∧ conn_w s2 = conn_w s1)) ∧
  (finished s →
   wire (w_calls (conn_w s))
   = wire (w_calls w) ++ flat_map forward l1 ++ flat_map forward l2) ∧
  (∃ s', rtc step s s' ∧ finished s' ∧
         wire (w_calls (conn_w s'))
         = wire (w_calls w) ++ flat_map forward l1 ++ flat_map forward l2).
Proof.
  intros Hrun Hchunks Hfail.
  assert (forward d = []) as Hnone by (unfold forward; by rewrite Hfail).
  assert (∀ s', rtc step (sseStart e w r) s' → finished s' →
            wire (w_calls (conn_w s'))
            = wire (w_calls w) ++ flat_map forward l1 ++ flat_map forward l2) as Hdone.
  { intros s' Hrun' Hfin.
    destruct (reachable_inv _ _ Hrun' (sseStart_inv e w r)) as [Hinv Heq].
    rewrite sseStart_future, (future_finished _ Hinv Hfin), app_nil_r in Heq.
    simpl in Heq. rewrite Heq, Hchunks, flat_map_app. simpl. by rewrite Hnone. }
  split; [done|]. split; [|split].
  - intros s1 s2 Hc Hstep. destruct s1 as [p c ch w0]. simpl in *. subst c.
    inversion Hstep; simpl in *; subst; simpl; try congruence; eauto.
  - by apply Hdone.
  - destruct (reachable_inv _ _ Hrun (sseStart_inv e w r)) as [Hinv _].
    destruct (can_finish s Hinv) as (s' & Hrest & Hfin).
    exists s'. split; [done|]. split; [done|].
    apply Hdone; [|done]. by etrans.
Qed.

End StreamClaims.

Lemma routes_test_hub (e : Endpoint) :
  routes (test_hub e)
  = Some (<["/test/stream"%string := RouteSSE e]> (<["/test"%string := RouteREST e]> ∅)).
Proof.
  unfold routes, test_hub, RegisterEndpoint, New. simpl.
  rewrite insert_empty, map_fold_singleton. reflexivity.
Qed.


Lemma stream_order_witness :
  wire (w_calls (conn_w (final (HandleSSE two_chunks (get "/test/stream" ∅)) fresh_writer)))
  = wire (w_calls fresh_writer)
    ++ flat_map forward (chunks (HandleSSE two_chunks (get "/test/stream" ∅))).
Proof.
  apply (proj1 (proj2 (@stream_order json_codec two_chunks fresh_writer
                         (get "/test/stream" ∅) _
                         (sseStart_run two_chunks fresh_writer (get "/test/stream" ∅))))).
  reflexivity.
Defined.

Example stream_two_frames :
  w_calls (@sseHandler json_codec two_chunks fresh_writer (get "/test/stream" ∅))
  = [CallWrite ("data: {" +:+ dquote +:+ "data" +:+ dquote +:+ ":{" +:+ dquote +:+ "endpoint"
                +:+ dquote +:+ ":" +:+ dquote +:+ "e" +:+ dquote +:+ "}}" +:+ newline +:+ newline);
     CallFlush;
     CallWrite ("data: {" +:+ dquote +:+ "data" +:+ dquote +:+ ":" +:+ dquote +:+ "ok" +:+ dquote
                +:+ "}" +:+ newline +:+ newline);
     CallFlush].
Proof. vm_compute. reflexivity. Qed.

Lemma relay_one_in_flight_witness :
  (List.length (in_flight (set_producer (PSending "ok" (λ _, Return))
                             (sseStart plain_ok fresh_writer (get "/test/stream" ∅))))
   ≤ 1)%nat.
Proof.
  apply (@relay_one_in_flight json_codec plain_ok fresh_writer (get "/test/stream" ∅)).
  apply rtc_once.
  by apply (step_write (sseStart plain_ok fresh_writer (get "/test/stream" ∅))
              "ok" (λ _, Return)).
Defined.

Lemma drain_skips_failed_chunk_witness :
  wire (w_calls (conn_w (@final strict_codec (HandleSSE three_chunks (get "/test/stream" ∅))
                           fresh_writer)))
  = wire (w_calls fresh_writer)
    ++ flat_map (@forward strict_codec) ["one"%string]
    ++ flat_map (@forward strict_codec) ["three"%string].
Proof.
  apply (proj1 (proj2 (proj2
    (@drain_skips_failed_chunk strict_codec three_chunks fresh_writer
       (get "/test/stream" ∅) _ ["one"%string] ["three"%string]
       (String (json.chr 233) EmptyString)
       (@sseStart_run strict_codec three_chunks fresh_writer (get "/test/stream" ∅))
       eq_refl eq_refl)))).
  reflexivity.
Defined.

Example stream_skips_second :
  bodies (w_calls (@sseHandler strict_codec three_chunks fresh_writer (get "/test/stream" ∅)))
  = [ "data: {" +:+ dquote +:+ "data" +:+ dquote +:+ ":" +:+ dquote +:+ "one" +:+ dquote
      +:+ "}" +:+ newline +:+ newline;
      "data: {" +:+ dquote +:+ "data" +:+ dquote +:+ ":" +:+ dquote +:+ "three" +:+ dquote
      +:+ "}" +:+ newline +:+ newline ].
Proof. vm_compute. reflexivity. Qed.

(** ** The event limit on the streaming route *)





Section LimitClaim.
Context `{Codec}.



End LimitClaim.


Example date_stream_two :
  bodies (w_calls (@sseHandler json_codec (date.New three_ticks) fresh_writer
                     (get "/date/stream" (max_count_is "2"))))
  = [ "data: {" +:+ dquote +:+ "data" +:+ dquote +:+ ":{" +:+ dquote +:+ "UTC" +:+ dquote
      +:+ ":" +:+ dquote +:+ "2025-02-27T12:31:34Z" +:+ dquote +:+ "}}" +:+ newline +:+ newline;
      "data: {" +:+ dquote +:+ "data" +:+ dquote +:+ ":{" +:+ dquote +:+ "UTC" +:+ dquote
      +:+ ":" +:+ dquote +:+ "2025-02-27T12:31:35Z" +:+ dquote +:+ "}}" +:+ newline +:+ newline ].
Proof. vm_compute. reflexivity. Qed.

(** ** The single-shot route *)

Lemma restRequest_max_count (r : Request) :
  Query (restRequest r) !! "max_count"%string = Some ["1"%string].
Proof. unfold restRequest, Query, setRawQuery, url.Set_. simpl. apply lookup_insert_eq. Qed.

Lemma restRequest_Get (r : Request) : url.Get (Query (restRequest r)) "max_count" = "1"%string.
Proof. unfold url.Get. by rewrite restRequest_max_count. Qed.

Lemma run_recorder_silent (p : Prog) (rr : responseRecorder) :
  sets_status p = false → code (run_recorder p rr) = code rr.
Proof.
  revert rr. induction p as [|b k IH|c k IH|key v k IH]; intros rr Hs; simpl in *; try done.
  - by rewrite IH.
  - by rewrite IH.
Qed.

Lemma append_cons (c : ascii) (s t : string) : String c s +:+ t = String c (s +:+ t).
Proof. reflexivity. Qed.

Lemma append_empty_r (s : string) : s +:+ EmptyString = s.
Proof. induction s as [|c s IH]; [done|]. by rewrite append_cons, IH. Qed.

Lemma append_assoc (a x y : string) : (a +:+ x) +:+ y = a +:+ (x +:+ y).
Proof. induction a as [|c a IH]; [done|]. by rewrite !append_cons, IH. Qed.

Lemma concat_cons (b : string) (l : list string) :
  String.concat EmptyString (b :: l) = b +:+ String.concat EmptyString l.
Proof. destruct l as [|d l]; [symmetry; apply append_empty_r|reflexivity]. Qed.

Lemma run_recorder_body (p : Prog) (rr : responseRecorder) :
  body (run_recorder p rr) = body rr +:+ String.concat EmptyString (chunks p).
Proof.
  revert rr. induction p as [|b k IH|c k IH|key v k IH]; intros rr.
  - simpl. by rewrite append_empty_r.
  - change (chunks (Write b k)) with (b :: chunks (k (len b, None))).
    rewrite concat_cons. simpl. rewrite IH. simpl. apply append_assoc.
  - simpl. by rewrite IH.
  - simpl. by rewrite IH.
Qed.

Section RestClaims.
Context `{Codec}.

Lemma restRespond_failure (w : ResponseWriter) (rr : responseRecorder) :
  code rr ≠ StatusOK →
  w_calls (restRespond w rr) = w_calls w ++ [CallWriteHeader (code rr); CallWrite (body rr)].
Proof.
  intros Hcode. unfold restRespond. rewrite decide_True by done. simpl.
  by rewrite <- app_assoc.
Qed.

Lemma restRespond_success (w : ResponseWriter) (rr : responseRecorder) (j : string) :
  code rr = StatusOK →
  Marshal (wrap (body rr)) = Some j →
  w_calls (restRespond w rr) = w_calls w ++ [CallWrite (j +:+ newline)].
Proof.
  intros Hcode Hj. unfold restRespond. rewrite decide_False by (intros Hne; by apply Hne).
  unfold Encode, BodyBytes. rewrite Hj. done.
Qed.



(** C7. On the single-shot route, when the status captured from the
    capability is not 200, the handler sends that status and the captured
    body as they are: nothing is parsed, wrapped or encoded. *)
Theorem rest_relays_failure (e : Endpoint) (w : ResponseWriter) (r : Request) :
  let rr := run_recorder (HandleSSE e (restRequest r)) newRecorder in
  code rr ≠ StatusOK →
  w_calls (restHandler e w r)
  = w_calls w ++ [CallWriteHeader (code rr); CallWrite (body rr)].
Proof.
  intros rr Hcode. unfold restHandler, restRespond. fold rr.
  rewrite decide_True by done. simpl.
  by rewrite <- app_assoc.
Qed.


End RestClaims.


Example rest_hello_world :
  w_calls (@restHandler json_codec (MockEndpoint hello_world) fresh_writer
             (get "/test" (max_count_is "7")))
  = [CallWrite ("{" +:+ dquote +:+ "data" +:+ dquote +:+ ":" +:+ hello_world +:+ "}" +:+ newline)].
Proof. vm_compute. reflexivity. Qed.

Lemma rest_relays_failure_witness :
  w_calls (@restHandler json_codec failing fresh_writer (get "/test" ∅))
  = w_calls fresh_writer ++ [CallWriteHeader 422; CallWrite "invalid attribute"].
Proof.
  apply (@rest_relays_failure json_codec failing fresh_writer (get "/test" ∅)).
  vm_compute. discriminate.
Defined.


(** With the reference codec the encoder has no error: a capability that
    sets no status always has an envelope written. *)
Lemma rest_default_status_json (e : Endpoint) (w : ResponseWriter) (r : Request) :
  sets_status (HandleSSE e (restRequest r)) = false →
  ∃ j, w_calls (@restHandler json_codec e w r) = w_calls w ++ [CallWrite (j +:+ newline)].
Proof.
  intros Hs.
  set (rr := run_recorder (HandleSSE e (restRequest r)) newRecorder).
  destruct (@Marshal json_codec (wrap (body rr))) as [j|] eqn:Hj; [|discriminate].
  exists j. unfold restHandler. apply restRespond_success; [|done].
  unfold rr. by rewrite run_recorder_silent.
Qed.

(** ** The envelope *)

Section WrapClaim.
Context `{Codec}.


End WrapClaim.


Example wrap_structured :
  @Marshal json_codec (wrap utc_chunk)
  = Some ("{" +:+ dquote +:+ "data" +:+ dquote +:+ ":" +:+ utc_chunk +:+ "}").
Proof. vm_compute. reflexivity. Qed.

Example wrap_text :
  @Marshal json_codec (wrap "ok")
  = Some ("{" +:+ dquote +:+ "data" +:+ dquote +:+ ":" +:+ dquote +:+ "ok" +:+ dquote +:+ "}").
Proof. vm_compute. reflexivity. Qed.

Example wrap_structured_value :
  @Data json_codec (wrap utc_chunk) = json.Object [("UTC"%string, json.Str "2025-02-27T12:31:34Z")].
Proof. vm_compute. reflexivity. Qed.

Example wrap_text_value : @Data json_codec (wrap "ok") = json.Str "ok".
Proof. vm_compute. reflexivity. Qed.

(** ** The relay writer *)

Module relay_writer_facts.
Import relay_writer.

Lemma contents_insert_ne (h : heap) (l : loc) (arr : list ascii) (b : slice) :
  base b ≠ l → contents (<[l := arr]> h) b = contents h b.
Proof. intros Hne. unfold contents. by rewrite lookup_insert_ne. Qed.

Lemma contents_empty (h : heap) (b : slice) : size b = 0%nat → contents h b = [].
Proof. intros Hz. unfold contents. by rewrite Hz. Qed.

Lemma fresh_not_allocated (h : heap) (b : slice) :
  base b ∈ dom h → base b ≠ fresh (dom h).
Proof. intros Hin Heq. rewrite Heq in Hin. by apply is_fresh in Hin. Qed.

Lemma Write_mem (b : slice) (σ : world) :
  mem (Write b σ).2
  = <[fresh (dom (mem σ)) := take (size b) (contents (mem σ) b)]>
      (<[fresh (dom (mem σ)) := replicate (size b) zero]> (mem σ))
  ∨ (size b ≠ 0%nat ∧ base b ∉ dom (mem σ)).
Proof.
  destruct (decide (size b = 0%nat)) as [Hz|Hnz].
  - left. unfold Write, make, copy. simpl.
    rewrite lookup_insert_eq. simpl.
    rewrite !contents_empty by done. rewrite Hz. done.
  - destruct (decide (base b ∈ dom (mem σ))) as [Hin|Hout]; [|by right].
    left. unfold Write, make, copy. simpl.
    rewrite lookup_insert_eq. simpl.
    rewrite Nat.min_id.
    rewrite contents_insert_ne by (by apply fresh_not_allocated).
    rewrite drop_replicate, Nat.sub_diag. simpl. by rewrite app_nil_r.
Qed.

Lemma valid_allocated (h : heap) (b : slice) :
  valid h b → size b = 0%nat ∨ base b ∈ dom h.
Proof.
  intros [Hz|(arr & Harr & _)]; [by left|right].
  apply elem_of_dom. by exists arr.
Qed.

Lemma take_contents (h : heap) (b : slice) :
  take (size b) (contents h b) = contents h b.
Proof. unfold contents. rewrite take_take. by rewrite Nat.min_id. Qed.

End relay_writer_facts.

Section WriterClaim.
Context `{Codec}.
Import relay_writer relay_writer_facts.

(** C9. [Write] on the relay writer returns [(len(b), nil)] for every
    slice; it sends one slice, on a backing array that was not allocated
    before the call, holding the contents [b] had at the call; slices that
    existed before keep their contents; and a later store through any
    slice that existed before the call, [b] included, leaves the sent
    chunk as it was. In the bridge, the continuation of a write is only
    ever resumed with [(len(b), nil)]. *)
Theorem Write_sends_copy (b : slice) (σ : world) :
  valid (mem σ) b →
  (Write b σ).1 = (Z.of_nat (size b), None) ∧
  (∃ data,
     sent (Write b σ).2 = sent σ ++ [data] ∧
     (base data ∉ dom (mem σ)) ∧
     contents (mem (Write b σ).2) data = contents (mem σ) b ∧
     (∀ b0, base b0 ∈ dom (mem σ) →
            contents (mem (Write b σ).2) b0 = contents (mem σ) b0) ∧
     (∀ b0 i v, base b0 ∈ dom (mem σ) →
                contents (store b0 i v (mem (Write b σ).2)) data = contents (mem σ) b)) ∧
  (∀ s s' d k, step s s' → producer s = PSending d k →
     producer s' = PSending d k ∨ producer s' = PRunning (k (len d, None))).
Proof.
  intros Hvalid. split; [done|]. split.
  - exists (mkSlice (fresh (dom (mem σ))) 0 (size b)).
    assert (mem (Write b σ).2
            = <[fresh (dom (mem σ)) := contents (mem σ) b]>
                (<[fresh (dom (mem σ)) := replicate (size b) zero]> (mem σ))) as Hmem.
    { destruct (Write_mem b σ) as [Hm|[Hnz Hout]].
      - by rewrite Hm, take_contents.
      - destruct (valid_allocated _ _ Hvalid); done. }
    assert (contents (mem (Write b σ).2) (mkSlice (fresh (dom (mem σ))) 0 (size b))
            = contents (mem σ) b) as Hdata.
    { rewrite Hmem. unfold contents at 1. simpl. rewrite lookup_insert_eq. simpl.
      apply take_contents. }
    split; [done|]. split; [apply is_fresh|]. split; [done|]. split.
    + intros b0 Hb0. rewrite Hmem.
      rewrite !contents_insert_ne by (by apply fresh_not_allocated). done.
    + intros b0 i v Hb0. unfold store. case_decide; [|done].
      rewrite contents_insert_ne; [done|]. simpl.
      intros Heq. by apply (fresh_not_allocated _ _ Hb0).
  - intros s s' d k Hstep Hp. destruct s as [p c ch w]. simpl in *. subst p.
    inversion Hstep; simpl in *; subst; simpl; try congruence; eauto.
    all: match goal with
         | Heq : PSending _ _ = PSending _ _ |- _ => injection Heq as <- <-
         end; eauto.
Qed.

End WriterClaim.

Lemma Write_sends_copy_witness :
  (relay_writer.Write sample_slice sample_world).1 = (3, None).
Proof.
  apply (@Write_sends_copy json_codec sample_slice sample_world).
  right. exists (list_ascii_of_string "abc"). split; [reflexivity|simpl; lia].
Defined.

Example Write_then_store :
  relay_writer.contents
    (relay_writer.store sample_slice 0 "z"
       (relay_writer.mem (relay_writer.Write sample_slice sample_world).2))
    (relay_writer.mkSlice 2 0 3)
  = list_ascii_of_string "abc".
Proof. vm_compute. reflexivity. Qed.

(** * Further properties of the code *)

(** ** The routes of [Start] *)





(** X1. The route table holds nothing but the two routes of each registered
    name. *)
Theorem routes_only (p : Hub) (mux : ServeMux) (pattern : string) (rt : Route) :
  routes p = Some mux →
  mux !! pattern = Some rt →
  ∃ N e, endpoints p !! N = Some e ∧
         ((pattern = "/" +:+ N ∧ rt = RouteREST e) ∨
          (pattern = "/" +:+ N +:+ "/stream" ∧ rt = RouteSSE e)).
Proof.
  unfold routes. revert mux pattern rt.
  apply (map_fold_weak_ind
    (λ (r : option ServeMux) (m : gmap string Endpoint),
       ∀ mux pattern rt, r = Some mux → mux !! pattern = Some rt →
         ∃ N e, m !! N = Some e ∧
                ((pattern = "/" +:+ N ∧ rt = RouteREST e) ∨
                 (pattern = "/" +:+ N +:+ "/stream" ∧ rt = RouteSSE e)))).
  - intros mux pattern rt [= <-] Hl. by rewrite lookup_empty in Hl.
  - intros i x m r Hi IH mux pattern rt Hr Hl.
    unfold register_routes in Hr.
    apply HandleFunc_Some in Hr as (m1 & Hm1 & _ & ->).
    apply HandleFunc_Some in Hm1 as (m0 & -> & _ & ->).
    apply lookup_insert_Some in Hl as [[<- <-]|[_ Hl]].
    { exists i, x. rewrite lookup_insert_eq. eauto. }
    apply lookup_insert_Some in Hl as [[<- <-]|[_ Hl]].
    { exists i, x. rewrite lookup_insert_eq. eauto. }
    destruct (IH m0 pattern rt eq_refl Hl) as (N & e & HN & Hcase).
    exists N, e. split; [|done].
    rewrite lookup_insert_ne; [done|]. intros ->. congruence.
Qed.

Lemma routes_only_witness :
  ∃ N e, endpoints (test_hub plain_ok) !! N = Some e ∧
         (("/test"%string = "/" +:+ N ∧ RouteREST plain_ok = RouteREST e) ∨
          ("/test"%string = "/" +:+ N +:+ "/stream" ∧ RouteREST plain_ok = RouteSSE e)).
Proof.
  apply (routes_only (test_hub plain_ok) _ "/test" (RouteREST plain_ok)
           (routes_test_hub plain_ok)).
  reflexivity.
Defined.





(** X3. Registering a name again replaces its capability and leaves every
    other name as it was; the routes of the name then lead to the capability
    registered last. *)
Theorem RegisterEndpoint_last_wins (p : Hub) (N : string) (e1 e2 : Endpoint) :
  RegisterEndpoint (RegisterEndpoint p N e1) N e2 = RegisterEndpoint p N e2 ∧
  endpoints (RegisterEndpoint (RegisterEndpoint p N e1) N e2) !! N = Some e2 ∧
  (∀ M, M ≠ N →
        endpoints (RegisterEndpoint (RegisterEndpoint p N e1) N e2) !! M = endpoints p !! M) ∧
  (∀ mux, routes (RegisterEndpoint (RegisterEndpoint p N e1) N e2) = Some mux →
          mux !! ("/" +:+ N) = Some (RouteREST e2) ∧
          mux !! ("/" +:+ N +:+ "/stream") = Some (RouteSSE e2)).
Proof.
  assert (RegisterEndpoint (RegisterEndpoint p N e1) N e2 = RegisterEndpoint p N e2) as Heq.
  { unfold RegisterEndpoint. simpl. by rewrite insert_insert_eq. }
  split; [done|]. rewrite Heq. unfold RegisterEndpoint at 1 2. simpl.
  split; [apply lookup_insert_eq|]. split.
  - intros M HM. by rewrite lookup_insert_ne.
  - intros mux Hmux. apply (routes_bind _ _ _ _ Hmux). simpl. apply lookup_insert_eq.
Qed.

Lemma RegisterEndpoint_last_wins_witness :
  endpoints (RegisterEndpoint (RegisterEndpoint (New DefaultConfig) "test" failing)
               "test" plain_ok) !! "test"%string
  = Some plain_ok.
Proof.
  exact (proj1 (proj2 (RegisterEndpoint_last_wins (New DefaultConfig) "test" failing plain_ok))).
Defined.

(** ** The streaming route: the end of a connection, statuses and headers *)

Lemma status_calls_app (l1 l2 : list Call) :
  status_calls (l1 ++ l2) = status_calls l1 ++ status_calls l2.
Proof. unfold status_calls. apply omap_app. Qed.

Section StreamExtras.
Context `{Codec}.

Lemma finished_closed (e : Endpoint) (w : ResponseWriter) (r : Request) (s : Conn) :
  rtc step (sseStart e w r) s → finished s → producer s = PClosed.
Proof.
  intros Hrun Hfin.
  destruct (reachable_inv _ _ Hrun (sseStart_inv e w r)) as [(_ & _ & Hclosed & Hret) _].
  apply Hclosed. by apply Hret.
Qed.

(** X4. When the handler of a streaming connection has returned, the
    capability's goroutine has returned too and the channel is closed, and
    no step is left: nothing is written to the connection afterwards. *)
Theorem finished_is_final (e : Endpoint) (w : ResponseWriter) (r : Request) (s : Conn) :
  rtc step (sseStart e w r) s →
  finished s →
  producer s = PClosed ∧
  ch_closed (responseChan s) = true ∧
  ∀ s', ¬ step s s'.
Proof.
  intros Hrun Hfin.
  destruct (reachable_inv _ _ Hrun (sseStart_inv e w r)) as [(_ & _ & Hclosed & Hret) _].
  pose proof (Hret Hfin) as Hc. pose proof (proj1 Hclosed Hc) as Hp.
  split; [done|]. split; [done|].
  intros s' Hstep. unfold finished in Hfin.
  inversion Hstep; subst; congruence.
Qed.

Lemma step_sink (s s' : Conn) :
  step s s' →
  status_calls (w_calls (conn_w s')) ++ statuses (rest_prog (producer s'))
  = status_calls (w_calls (conn_w s)) ++ statuses (rest_prog (producer s)) ∧
  prog_headers (rest_prog (producer s')) (w_header (conn_w s'))
  = prog_headers (rest_prog (producer s)) (w_header (conn_w s)).
Proof.
  destruct s as [p c ch w].
  inversion 1; simpl in *; subst; simpl; rewrite ?status_calls_app, ?app_nil_r; try done.
  by rewrite <- app_assoc.
Qed.

Lemma reachable_sink (s0 s : Conn) :
  rtc step s0 s →
  status_calls (w_calls (conn_w s)) ++ statuses (rest_prog (producer s))
  = status_calls (w_calls (conn_w s0)) ++ statuses (rest_prog (producer s0)) ∧
  prog_headers (rest_prog (producer s)) (w_header (conn_w s))
  = prog_headers (rest_prog (producer s0)) (w_header (conn_w s0)).
Proof.
  induction 1 as [s|s1 s2 s3 Hstep _ [IH1 IH2]]; [done|].
  destruct (step_sink _ _ Hstep) as [H1 H2]. split; congruence.
Qed.

Lemma relay_sink (p : Prog) (w : ResponseWriter) :
  status_calls (w_calls (relay p w)) = status_calls (w_calls w) ++ statuses p ∧
  w_header (relay p w) = prog_headers p (w_header w).
Proof.
  revert w. induction p as [|b k IH|c k IH|key v k IH]; intros w; simpl.
  - by rewrite app_nil_r.
  - destruct (IH (len b, None)
                (mkResponseWriter (w_header w) (w_calls w ++ forward b) (w_flusher w)))
      as [IH1 IH2].
    split; [|done]. rewrite IH1. simpl. rewrite status_calls_app.
    unfold forward. destruct (Marshal (wrap b)); simpl; by rewrite app_nil_r.
  - destruct (IH (call (CallWriteHeader c) w)) as [IH1 IH2].
    split; [|done]. rewrite IH1. simpl. rewrite status_calls_app. simpl.
    by rewrite <- app_assoc.
  - destruct (IH (Header_Set key v w)) as [IH1 IH2]. done.
Qed.

Lemma finished_sink (e : Endpoint) (w : ResponseWriter) (r : Request) (s : Conn) :
  rtc step (sseStart e w r) s →
  finished s →
  status_calls (w_calls (conn_w s))
  = status_calls (w_calls w) ++ statuses (HandleSSE e r) ∧
  w_header (conn_w s) = prog_headers (HandleSSE e r) (w_header w).
Proof.
  intros Hrun Hfin.
  pose proof (finished_closed e w r s Hrun Hfin) as Hp.
  destruct (reachable_sink _ _ Hrun) as [H1 H2].
  rewrite Hp in H1, H2. simpl in H1, H2. rewrite app_nil_r in H1. done.
Qed.

(** X5. The streaming handler sets no status of its own and touches no
    header after the opening ones: when it has returned, the [WriteHeader]
    calls on the live connection are those of the capability, in order, and
    the header map is the one the stream opened with, overwritten by the
    headers the capability set. Both are as in the sequential reading. *)
Theorem stream_statuses_headers (e : Endpoint) (w : ResponseWriter) (r : Request) (s : Conn) :
  rtc step (sseStart e w r) s →
  finished s →
  status_calls (w_calls (conn_w s))
  = status_calls (w_calls w) ++ statuses (HandleSSE e r) ∧
  w_header (conn_w s) = prog_headers (HandleSSE e r) (w_header w) ∧
  status_calls (w_calls (conn_w s)) = status_calls (w_calls (relay (HandleSSE e r) w)) ∧
  w_header (conn_w s) = w_header (relay (HandleSSE e r) w).
Proof.
  intros Hrun Hfin.
  destruct (finished_sink e w r s Hrun Hfin) as [H1 H2].
  destruct (relay_sink (HandleSSE e r) w) as [R1 R2].
  repeat split; congruence.
Qed.

End StreamExtras.

Lemma finished_is_final_witness :
  producer (@final json_codec (HandleSSE two_chunks (get "/test/stream" ∅)) fresh_writer)
  = PClosed.
Proof.
  apply (@finished_is_final json_codec two_chunks fresh_writer (get "/test/stream" ∅) _
           (sseStart_run two_chunks fresh_writer (get "/test/stream" ∅))).
  reflexivity.
Defined.

Lemma stream_statuses_headers_witness :
  w_header (conn_w (@final json_codec (HandleSSE (MockEndpoint "ok") (get "/test/stream" ∅))
                      opened_writer))
  = prog_headers (HandleSSE (MockEndpoint "ok") (get "/test/stream" ∅)) (w_header opened_writer).
Proof.
  apply (@stream_statuses_headers json_codec (MockEndpoint "ok") opened_writer
           (get "/test/stream" ∅) _
           (sseStart_run (MockEndpoint "ok") opened_writer (get "/test/stream" ∅))).
  reflexivity.
Defined.

(** The mock endpoint of the tests sets a content type: on the streaming
    route it replaces the event-stream declaration of the live connection. *)
Example mock_replaces_content_type :
  w_header (@sseHandler json_codec (MockEndpoint "ok") fresh_writer (get "/test/stream" ∅))
    !! "Content-Type"%string
  = Some ["application/json"%string].
Proof. vm_compute. reflexivity. Qed.

(** ** The single-shot route: what the client decides, and what the
    capability does *)

Lemma last_cons (l : list Z) (c d : Z) : List.last (c :: l) d = List.last l c.
Proof.
  revert c d. induction l as [|x l IH]; intros c d; [done|].
  change (List.last (c :: x :: l) d) with (List.last (x :: l) d).
  by rewrite !IH.
Qed.

Lemma run_recorder_sink (p : Prog) (rr : responseRecorder) :
  code (run_recorder p rr) = List.last (statuses p) (code rr) ∧
  header (run_recorder p rr) = prog_headers p (header rr).
Proof.
  revert rr. induction p as [|b k IH|c k IH|key v k IH]; intros rr;
    cbn [run_recorder statuses prog_headers].
  - done.
  - apply (IH (len b, None) (recorder_Write b rr).2).
  - destruct (IH (recorder_WriteHeader c rr)) as [IH1 IH2]. split; [|done].
    rewrite IH1. simpl code. by rewrite last_cons.
  - apply (IH (recorder_HeaderSet key v rr)).
Qed.

Section RestExtras.
Context `{Codec}.




End RestExtras.




(** ** The date endpoint *)

Lemma date_loop_exact (m c : Z) (ticks : list string) :
  chunks (date.loop m c ticks)
  = List.map date.Marshal_DateResponse (take (Z.to_nat (m - c)) ticks) ∧
  statuses (date.loop m c ticks) = [] ∧
  ∀ h, prog_headers (date.loop m c ticks) h = h.
Proof.
  revert c. induction ticks as [|utc ticks IH]; intros c.
  - rewrite take_nil. done.
  - cbn [date.loop]. destruct (Z.leb_spec m c) as [Hle|Hlt].
    + replace (Z.to_nat (m - c)) with 0%nat by lia. done.
    + destruct (IH (c + 1)) as (IH1 & IH2 & IH3).
      replace (Z.to_nat (m - c)) with (S (Z.to_nat (m - (c + 1)))) by lia.
      cbn [chunks statuses prog_headers take List.map]. cbn [snd].
      rewrite IH1, IH2. split; [done|]. split; [done|]. apply IH3.
Qed.

Lemma date_chunks_take (ticks : list string) (r : Request) :
  chunks (HandleSSE (date.New ticks) r)
  = List.map date.Marshal_DateResponse (take (Z.to_nat (date.maxCount_of r)) ticks).
Proof.
  simpl. unfold date.HandleSSE.
  rewrite (proj1 (date_loop_exact (date.maxCount_of r) 0 ticks)). by rewrite Z.sub_0_r.
Qed.

Lemma date_silent (ticks : list string) (r : Request) :
  sets_status (HandleSSE (date.New ticks) r) = false.
Proof.
  simpl. unfold date.HandleSSE. generalize 0 as c.
  induction ticks as [|utc ticks IH]; intros c; [done|].
  cbn [date.loop]. destruct (date.maxCount_of r <=? c); [done|].
  cbn [sets_status snd]. apply IH.
Qed.

(** X9. What the date endpoint writes: one chunk [{"UTC":"<time>"}] per
    tick, for the first [maxCount] ticks it receives before its context is
    done, in tick order, and nothing else: it sets no status and no
    header. *)
Theorem date_chunks (ticks : list string) (r : Request) :
  chunks (HandleSSE (date.New ticks) r)
  = List.map date.Marshal_DateResponse (take (Z.to_nat (date.maxCount_of r)) ticks) ∧
  statuses (HandleSSE (date.New ticks) r) = [] ∧
  sets_status (HandleSSE (date.New ticks) r) = false ∧
  ∀ h, prog_headers (HandleSSE (date.New ticks) r) h = h.
Proof.
  split; [apply date_chunks_take|]. split; [|split; [apply date_silent|]].
  - simpl. unfold date.HandleSSE. apply date_loop_exact.
  - intros h. simpl. unfold date.HandleSSE. apply date_loop_exact.
Qed.

Section DateExtras.
Context `{Codec}.

(** X10. The date endpoint reads [max_count] itself and does not fall back
    to the default on a bad value: when the parameter is present and does
    not scan, or scans to zero or less, it writes nothing, and the stream
    ends without a frame, although [getMaxCount] resolves the same request
    to 3600. Only an absent or empty parameter gives the limit 3600. *)
Theorem date_bad_limit (ticks : list string) (w : ResponseWriter) (r : Request) (s : Conn) :
  url.Get (Query r) "max_count" ≠ EmptyString →
  (∀ n, fmt.Sscanf_d (url.Get (Query r) "max_count") = Some n → n ≤ 0) →
  rtc step (sseStart (date.New ticks) w r) s →
  finished s →
  getMaxCount r = 3600 ∧
  date.maxCount_of r ≤ 0 ∧
  chunks (HandleSSE (date.New ticks) r) = [] ∧
  wire (w_calls (conn_w s)) = wire (w_calls w).
Proof.
  intros Hraw Hscan Hrun Hfin.
  assert (getMaxCount r = 3600) as Hmax.
  { unfold getMaxCount. rewrite decide_False by done.
    destruct (fmt.Sscanf_d _) as [n|] eqn:E; [|done].
    specialize (Hscan n eq_refl). destruct (Z.leb_spec n 0); [done|lia]. }
  assert (date.maxCount_of r ≤ 0) as Hle.
  { unfold date.maxCount_of. rewrite decide_True by done.
    destruct (fmt.Sscanf_d _) as [n|] eqn:E; [by apply Hscan|lia]. }
  assert (chunks (HandleSSE (date.New ticks) r) = []) as Hnone.
  { rewrite date_chunks_take.
    replace (Z.to_nat (date.maxCount_of r)) with 0%nat by lia. done. }
  split; [done|]. split; [done|]. split; [done|].
  destruct (reachable_inv _ _ Hrun (sseStart_inv (date.New ticks) w r)) as [Hinv Heq].
  rewrite sseStart_future, (future_finished _ Hinv Hfin), Hnone, !app_nil_r in Heq.
  done.
Qed.

(** X11. The single-shot route on the date endpoint, whatever the client
    asked for: the capability runs with limit 1, so it writes the chunk of
    the first tick and returns at the second; the captured status is 200
    and the response is the envelope of that one chunk. When the context is
    done before the first tick the captured body is empty. *)
Theorem date_single_shot (ticks : list string) (w : ResponseWriter) (r : Request) :
  let rr := run_recorder (HandleSSE (date.New ticks) (restRequest r)) newRecorder in
  code rr = StatusOK ∧
  header rr = ∅ ∧
  body rr = match ticks with
            | [] => EmptyString
            | utc :: _ => date.Marshal_DateResponse utc
            end ∧
  ∀ j, Marshal (wrap (body rr)) = Some j →
       w_calls (restHandler (date.New ticks) w r) = w_calls w ++ [CallWrite (j +:+ newline)].
Proof.
  intros rr.
  pose proof (date_chunks_take ticks (restRequest r)) as Hchunks.
  pose proof (date_silent ticks (restRequest r)) as Hsilent.
  assert (∀ h, prog_headers (HandleSSE (date.New ticks) (restRequest r)) h = h) as Hh.
  { intros h. simpl. unfold date.HandleSSE. apply date_loop_exact. }
  assert (date.maxCount_of (restRequest r) = 1) as Hone.
  { unfold date.maxCount_of. by rewrite restRequest_Get. }
  rewrite Hone in Hchunks.
  assert (code rr = StatusOK) as Hcode.
  { unfold rr. by rewrite run_recorder_silent. }
  split; [done|]. split.
  { unfold rr. rewrite (proj2 (run_recorder_sink _ newRecorder)). apply Hh. }
  split.
  { unfold rr. rewrite run_recorder_body, Hchunks.
    destruct ticks as [|utc ticks']; reflexivity. }
  intros j Hj. unfold restHandler. by apply restRespond_success.
Qed.

End DateExtras.

Lemma date_bad_limit_witness :
  wire (w_calls (conn_w (@final json_codec
                           (HandleSSE (date.New three_ticks)
                              (get "/date/stream" (max_count_is "abc")))
                           opened_writer)))
  = wire (w_calls opened_writer).
Proof.
  refine (proj2 (proj2 (proj2
    (@date_bad_limit json_codec three_ticks opened_writer
       (get "/date/stream" (max_count_is "abc")) _ _ _ (sseStart_run _ _ _) _)))).
  - vm_compute. discriminate.
  - intros n Hn. vm_compute in Hn. discriminate.
  - reflexivity.
Defined.

Example date_zero_limit :
  w_calls (@sseHandler json_codec (date.New three_ticks) fresh_writer
             (get "/date/stream" (max_count_is "0")))
  = [] ∧
  getMaxCount (get "/date/stream" (max_count_is "0")) = 3600.
Proof. split; vm_compute; reflexivity. Qed.

Lemma date_single_shot_witness :
  w_calls (@restHandler json_codec (date.New three_ticks) fresh_writer
             (get "/date" (max_count_is "5")))
  = w_calls fresh_writer
    ++ [CallWrite (("{" +:+ dquote +:+ "data" +:+ dquote +:+ ":" +:+ utc_chunk +:+ "}")
                   +:+ newline)].
Proof.
  apply (@date_single_shot json_codec three_ticks fresh_writer (get "/date" (max_count_is "5"))).
  vm_compute. reflexivity.
Defined.

(** ** The event-count resolver: range and leniency *)

Lemma ParseUint_loop_nonneg (tok : list Z) (n v : Z) :
  0 ≤ n → strconv.ParseUint_loop n tok = inr v → 0 ≤ v.
Proof.
  revert n. induction tok as [|c tok IH]; intros n Hn; cbn [strconv.ParseUint_loop].
  - by intros [= <-].
  - unfold in_range. destruct (Z.leb_spec 48 c); [|done]. destruct (Z.leb_spec c 57); [|done].
    cbn [andb]. cbv zeta.
    destruct (strconv.maxUint64 / 10 + 1 <=? n); [done|].
    destruct (strconv.maxUint64 <? n * 10 + (c - 48)); [done|].
    apply IH. lia.
Qed.

Lemma ParseInt_range (tok : list Z) (i : Z) :
  strconv.ParseInt tok = inr i → - 2 ^ 63 ≤ i < 2 ^ 63.
Proof.
  unfold strconv.ParseInt. destruct tok as [|c rest]; [done|].
  destruct (strconv.ParseUint _) as [[]|un] eqn:E; [done|done|].
  assert (0 ≤ un) as Hun.
  { unfold strconv.ParseUint in E.
    destruct (if (c =? 43) || (c =? 45) then rest else c :: rest); [done|].
    by apply (ParseUint_loop_nonneg _ 0 un) in E. }
  change strconv.cutoff with (2 ^ 63).
  destruct (c =? 45); cbn [negb andb].
  - destruct (Z.ltb_spec (2 ^ 63) un); [done|]. intros [= <-]. lia.
  - destruct (Z.leb_spec (2 ^ 63) un); [done|]. intros [= <-]. lia.
Qed.

Lemma Sscanf_d_range (s : string) (n : Z) :
  fmt.Sscanf_d s = Some n → - 2 ^ 63 ≤ n < 2 ^ 63.
Proof.
  unfold fmt.Sscanf_d, fmt.scanInt.
  destruct (fmt.SkipSpace _) as [[|r rest]|]; [done| |done].
  destruct (fmt.accept_all _ _); [done|].
  destruct (strconv.ParseInt _) as [|i] eqn:E; [done|].
  intros [= <-]. by apply ParseInt_range in E.
Qed.

(** X12. Whatever the request, [getMaxCount] returns a positive limit that
    fits a 64-bit [int]. *)
Theorem getMaxCount_range (r : Request) : 1 ≤ getMaxCount r ≤ 2 ^ 63 - 1.
Proof.
  unfold getMaxCount. case_decide; [lia|].
  destruct (fmt.Sscanf_d _) as [n|] eqn:E; [|lia].
  apply Sscanf_d_range in E. destruct (Z.leb_spec n 0); lia.
Qed.

Lemma runes_ascii_app (s t : string) :
  is_ascii s = true → runes (s +:+ t) = codes s ++ runes t.
Proof.
  induction s as [|c s IH]; [done|]. cbn [is_ascii]. intros Ha.
  apply andb_true_iff in Ha as [Hc Hs]. apply Z.ltb_lt in Hc.
  rewrite append_cons, runes_ascii_cons, codes_cons by done. by rewrite IH.
Qed.

Lemma all_digits_ascii (s : string) : all_digits s = true → is_ascii s = true.
Proof.
  induction s as [|c s IH]; [done|]. intros Hd.
  apply all_digits_cons in Hd as [Hc Hs]. cbn [is_ascii].
  rewrite IH by done. destruct (Z.ltb_spec (byte_val c) 128); [done|lia].
Qed.

Lemma accept_all_digits_stop (s : string) (tl : list Z) :
  all_digits s = true → stops tl →
  fmt.accept_all fmt.is_decimalDigit (codes s ++ tl) = codes s.
Proof.
  intros Hd Hstop. induction s as [|c s IH].
  - destruct tl as [|r tl]; [done|]. simpl in *. by rewrite Hstop.
  - apply all_digits_cons in Hd as [Hc Hs].
    rewrite codes_cons. cbn [app fmt.accept_all]. rewrite IH by done.
    unfold fmt.is_decimalDigit, in_range. by decide_cmp.
Qed.

Lemma ParseInt_signed (sgn : list Z) (s : string) :
  s ≠ EmptyString → all_digits s = true →
  (sgn = [] ∧ digits_value 0 s < 2 ^ 63 ∨
   sgn = [43] ∧ digits_value 0 s < 2 ^ 63 ∨
   sgn = [45] ∧ digits_value 0 s ≤ 2 ^ 63) →
  strconv.ParseInt (sgn ++ codes s)
  = inr (if decide (sgn = [45]) then - digits_value 0 s else digits_value 0 s).
Proof.
  intros Hne Hd Hcase.
  destruct (all_digits_nonempty s Hne Hd) as (c & s' & -> & Hc).
  assert (strconv.ParseUint (codes (String c s')) = inr (digits_value 0 (String c s'))) as Hu.
  { apply ParseUint_digits; [done|done|]. destruct Hcase as [[_ ?]|[[_ ?]|[_ ?]]]; lia. }
  change strconv.cutoff with (2 ^ 63).
  destruct Hcase as [[-> Hv]|[[-> Hv]|[-> Hv]]].
  - rewrite app_nil_l, codes_cons. unfold strconv.ParseInt.
    destruct (byte_val c =? 43) eqn:E1; [apply Z.eqb_eq in E1; lia|].
    destruct (byte_val c =? 45) eqn:E2; [apply Z.eqb_eq in E2; lia|].
    cbn [orb]. rewrite <- codes_cons, Hu. cbn [negb andb].
    change strconv.cutoff with (2 ^ 63).
    destruct (Z.leb_spec (2 ^ 63) (digits_value 0 (String c s'))); [lia|].
    by rewrite decide_False.
  - change ([43] ++ codes (String c s')) with (43 :: codes (String c s')).
    unfold strconv.ParseInt. change (43 =? 45) with false. change (43 =? 43) with true.
    cbn [orb]. rewrite Hu. cbn [negb andb]. change strconv.cutoff with (2 ^ 63).
    destruct (Z.leb_spec (2 ^ 63) (digits_value 0 (String c s'))); [lia|].
    by rewrite decide_False.
  - change ([45] ++ codes (String c s')) with (45 :: codes (String c s')).
    unfold strconv.ParseInt. change (45 =? 45) with true. change (45 =? 43) with false.
    cbn [orb]. rewrite Hu. cbn [negb andb]. change strconv.cutoff with (2 ^ 63).
    destruct (Z.ltb_spec (2 ^ 63) (digits_value 0 (String c s'))); [lia|].
    by rewrite decide_True.
Qed.

Lemma scanInt_unsigned_tail (s : string) (tl : list Z) :
  s ≠ EmptyString → all_digits s = true → stops tl → digits_value 0 s < 2 ^ 63 →
  fmt.scanInt (codes s ++ tl) = Some (digits_value 0 s).
Proof.
  intros Hne Hd Hstop Hv.
  pose proof (ParseInt_signed [] s Hne Hd ltac:(left; done)) as Hp.
  rewrite decide_False in Hp by done.
  pose proof (accept_all_digits_stop s tl Hd Hstop) as Hacc.
  destruct (all_digits_nonempty s Hne Hd) as (c & s' & -> & Hc).
  unfold fmt.scanInt. rewrite codes_cons in *. cbn [app] in *.
  rewrite SkipSpace_token by lia.
  assert (fmt.is_sign (byte_val c) = false) as ->.
  { unfold fmt.is_sign. by decide_cmp. }
  rewrite Hacc. cbn [app]. by rewrite Hp.
Qed.

Lemma scanInt_signed_tail (c : Z) (s : string) (tl : list Z) :
  c = 43 ∨ c = 45 →
  s ≠ EmptyString → all_digits s = true → stops tl →
  (if decide (c = 45) then digits_value 0 s ≤ 2 ^ 63 else digits_value 0 s < 2 ^ 63) →
  fmt.scanInt (c :: codes s ++ tl)
  = Some (if decide (c = 45) then - digits_value 0 s else digits_value 0 s).
Proof.
  intros Hc Hne Hd Hstop Hv.
  pose proof (accept_all_digits_stop s tl Hd Hstop) as Hacc.
  assert (strconv.ParseInt ([c] ++ codes s)
          = inr (if decide (c = 45) then - digits_value 0 s else digits_value 0 s)) as Hp.
  { destruct Hc as [-> | ->].
    - rewrite (ParseInt_signed [43] s Hne Hd) by (right; left; done). done.
    - rewrite (ParseInt_signed [45] s Hne Hd) by (right; right; done). done. }
  destruct (all_digits_nonempty s Hne Hd) as (d & s' & -> & Hdr).
  unfold fmt.scanInt. rewrite SkipSpace_token by lia.
  assert (fmt.is_sign c = true) as ->.
  { unfold fmt.is_sign. destruct Hc as [-> | ->]; done. }
  rewrite Hacc. rewrite codes_cons in *. by rewrite Hp.
Qed.

Lemma Sscanf_trailing (s t : string) :
  numeric s = true →
  - 2 ^ 63 ≤ int_value s < 2 ^ 63 →
  stops (runes t) →
  fmt.Sscanf_d (s +:+ t) = Some (int_value s).
Proof.
  destruct s as [|c s']; [done|].
  unfold numeric, int_value, is_sign_char, fmt.Sscanf_d.
  destruct (byte_val c =? 45) eqn:Eminus; [|destruct (byte_val c =? 43) eqn:Eplus].
  - apply Z.eqb_eq in Eminus. rewrite orb_true_r. intros Hd Hv Hstop.
    assert (s' ≠ EmptyString) as Hne by (by destruct s').
    assert (all_digits s' = true) as Hall by (by destruct s').
    rewrite append_cons, runes_ascii_cons by lia.
    rewrite (runes_ascii_app s' t (all_digits_ascii s' Hall)), Eminus.
    rewrite (scanInt_signed_tail 45 s' (runes t)); try done; [by right|].
    rewrite decide_True by done. lia.
  - apply Z.eqb_eq in Eplus. cbn [orb]. intros Hd Hv Hstop.
    assert (s' ≠ EmptyString) as Hne by (by destruct s').
    assert (all_digits s' = true) as Hall by (by destruct s').
    rewrite append_cons, runes_ascii_cons by lia.
    rewrite (runes_ascii_app s' t (all_digits_ascii s' Hall)), Eplus.
    rewrite (scanInt_signed_tail 43 s' (runes t)); try done; [by left|].
    rewrite decide_False by done. lia.
  - cbn [orb]. intros Hd Hv Hstop.
    rewrite (runes_ascii_app _ t (all_digits_ascii _ Hd)).
    apply scanInt_unsigned_tail; [done|done|done|lia].
Qed.

Lemma Sscanf_leading_blank (c : ascii) (s : string) :
  byte_val c = 32 ∨ byte_val c = 9 →
  fmt.Sscanf_d (String c s) = fmt.Sscanf_d s.
Proof.
  intros Hc. unfold fmt.Sscanf_d. rewrite runes_ascii_cons by lia.
  unfold fmt.scanInt.
  assert (fmt.SkipSpace (byte_val c :: runes s) = fmt.SkipSpace (runes s)) as ->; [|done].
  cbn [fmt.SkipSpace]. destruct Hc as [-> | ->]; reflexivity.
Qed.

Lemma Get_with_max_count (s : string) : url.Get (Query (with_max_count s)) "max_count" = s.
Proof. unfold url.Get, Query, with_max_count. simpl. by rewrite lookup_singleton_eq. Qed.

(** X13. The scan behind [getMaxCount] is lenient on both sides of the
    integer. Text after a numeric value that does not go on with a digit or
    an underscore is ignored: the limit is that of the numeric value alone.
    A space or a tab in front of any value is skipped. *)
Theorem getMaxCount_lenient (s t : string) (c : ascii) :
  (numeric s = true → - 2 ^ 63 ≤ int_value s < 2 ^ 63 → stops (runes t) →
   getMaxCount (with_max_count (s +:+ t)) = getMaxCount (with_max_count s)) ∧
  (byte_val c = 32 ∨ byte_val c = 9 →
   getMaxCount (with_max_count (String c s)) = getMaxCount (with_max_count s)).
Proof.
  split.
  - intros Hnum Hv Hstop. unfold getMaxCount. rewrite !Get_with_max_count.
    rewrite (Sscanf_trailing s t Hnum Hv Hstop), (Sscanf_numeric s Hnum Hv).
    destruct s as [|a s']; [done|]. rewrite append_cons.
    rewrite !decide_False by done. done.
  - intros Hc. unfold getMaxCount. rewrite !Get_with_max_count.
    rewrite (Sscanf_leading_blank c s Hc). rewrite decide_False by done.
    case_decide as Hs; [|done]. by rewrite Hs, Sscanf_empty.
Qed.

Lemma getMaxCount_lenient_witness :
  getMaxCount (with_max_count ("12" +:+ " seconds")) = getMaxCount (with_max_count "12").
Proof.
  apply (proj1 (getMaxCount_lenient "12" " seconds" "a")).
  - reflexivity.
  - change (int_value "12") with 12. lia.
  - vm_compute. reflexivity.
Defined.

(** ** WriteError through the two routes *)

Section WriteErrorExtras.
Context `{Codec}.

(** X14. A capability that reports an error with [WriteError] on the
    single-shot route: with a status other than 200 the client gets that
    status and the error envelope followed by a newline, not wrapped, under
    the content type [application/json]; with status 200 the error envelope
    is taken for a success and wrapped as [data]. *)
Theorem WriteError_single_shot (e : Endpoint) (w : ResponseWriter) (r : Request)
    (status : Z) (title detail : string) (on_error : Prog) :
  HandleSSE e (restRequest r) = WriteError status title detail on_error Return →
  let envelope := Marshal_ErrorResponse (error_response status title detail) in
  (status ≠ StatusOK →
   w_calls (restHandler e w r)
   = w_calls w ++ [CallWriteHeader status; CallWrite (envelope +:+ newline)] ∧
   w_header (restHandler e w r) !! "Content-Type"%string = Some ["application/json"%string]) ∧
  (status = StatusOK →
   ∀ j, Marshal (wrap (envelope +:+ newline)) = Some j →
        w_calls (restHandler e w r) = w_calls w ++ [CallWrite (j +:+ newline)]).
Proof.
  intros He envelope.
  assert (run_recorder (HandleSSE e (restRequest r)) newRecorder
          = {| header := {[ "Content-Type"%string := ["application/json"%string] ]};
               body := envelope +:+ newline; code := status |}) as Hrr.
  { rewrite He. unfold WriteError. cbn. by rewrite insert_empty. }
  unfold restHandler. rewrite Hrr. split.
  - intros Hne. split.
    + by rewrite restRespond_failure.
    + unfold restRespond. rewrite decide_True by done. simpl. apply lookup_insert_eq.
  - intros Hok j Hj. by rewrite (restRespond_success _ _ j).
Qed.

(** X15. The same capability on the streaming route: its status goes to
    the live connection as it is, its content type replaces the
    event-stream declaration, and the error envelope is not relayed as
    such: it is forwarded like any chunk, wrapped as [data] inside a frame. *)
Theorem WriteError_stream (e : Endpoint) (w : ResponseWriter) (r : Request) (s : Conn)
    (status : Z) (title detail : string) (on_error : Prog) :
  HandleSSE e r = WriteError status title detail on_error Return →
  rtc step (sseStart e w r) s →
  finished s →
  let envelope := Marshal_ErrorResponse (error_response status title detail) in
  wire (w_calls (conn_w s)) = wire (w_calls w) ++ forward (envelope +:+ newline) ∧
  status_calls (w_calls (conn_w s)) = status_calls (w_calls w) ++ [status] ∧
  w_header (conn_w s) !! "Content-Type"%string = Some ["application/json"%string].
Proof.
  intros He Hrun Hfin envelope.
  destruct (reachable_inv _ _ Hrun (sseStart_inv e w r)) as [Hinv Heq].
  rewrite sseStart_future, (future_finished _ Hinv Hfin), app_nil_r in Heq.
  destruct (finished_sink e w r s Hrun Hfin) as (Hst & Hh).
  rewrite He in Heq, Hst, Hh. unfold WriteError in Heq, Hst, Hh.
  cbn [chunks statuses prog_headers snd flat_map] in Heq, Hst, Hh.
  rewrite app_nil_r in Heq.
  split; [done|]. split; [done|]. rewrite Hh. apply lookup_insert_eq.
Qed.

End WriteErrorExtras.

Lemma WriteError_single_shot_witness :
  w_calls (@restHandler json_codec erroring fresh_writer (get "/test" ∅))
  = w_calls fresh_writer
    ++ [CallWriteHeader 422;
        CallWrite (Marshal_ErrorResponse (error_response 422 "Invalid Attribute" "too short")
                   +:+ newline)].
Proof.
  refine (proj1 (proj1 (@WriteError_single_shot json_codec erroring fresh_writer
                          (get "/test" ∅) 422 "Invalid Attribute" "too short" Return eq_refl)
                   _)).
  vm_compute. discriminate.
Defined.

Lemma WriteError_stream_witness :
  w_header (conn_w (@final json_codec (HandleSSE erroring (get "/test/stream" ∅))
                      opened_writer))
    !! "Content-Type"%string
  = Some ["application/json"%string].
Proof.
  refine (proj2 (proj2 (@WriteError_stream json_codec erroring opened_writer
                          (get "/test/stream" ∅) _ 422 "Invalid Attribute" "too short" Return
                          eq_refl (sseStart_run _ _ _) _))).
  reflexivity.
Defined.

Example WriteError_envelope :
  Marshal_ErrorResponse (error_response 422 "Invalid Attribute" "too short")
  = "{" +:+ dquote +:+ "errors" +:+ dquote +:+ ":[{" +:+ dquote +:+ "status" +:+ dquote +:+ ":"
    +:+ dquote +:+ "422" +:+ dquote +:+ "," +:+ dquote +:+ "title" +:+ dquote +:+ ":" +:+ dquote
    +:+ "Invalid Attribute" +:+ dquote +:+ "," +:+ dquote +:+ "detail" +:+ dquote +:+ ":"
    +:+ dquote +:+ "too short" +:+ dquote +:+ "}]}".
Proof. vm_compute. reflexivity. Qed.

Example WriteError_framed :
  bodies (w_calls (@sseHandler json_codec erroring fresh_writer (get "/test/stream" ∅)))
  = [ "data: {" +:+ dquote +:+ "data" +:+ dquote +:+ ":{" +:+ dquote +:+ "errors" +:+ dquote
      +:+ ":[{" +:+ dquote +:+ "detail" +:+ dquote +:+ ":" +:+ dquote +:+ "too short" +:+ dquote
      +:+ "," +:+ dquote +:+ "status" +:+ dquote +:+ ":" +:+ dquote +:+ "422" +:+ dquote
      +:+ "," +:+ dquote +:+ "title" +:+ dquote +:+ ":" +:+ dquote +:+ "Invalid Attribute"
      +:+ dquote +:+ "}]}}" +:+ newline +:+ newline ].
Proof. vm_compute. reflexivity. Qed.

(** ** A sequence of writes on the relay writer *)

Section WriterExtras.
Import relay_writer relay_writer_facts.

Lemma Write_effect (b : slice) (σ : world) :
  valid (mem σ) b →
  mem (Write b σ).2 = <[fresh (dom (mem σ)) := contents (mem σ) b]> (mem σ) ∧
  sent (Write b σ).2 = sent σ ++ [mkSlice (fresh (dom (mem σ))) 0 (size b)].
Proof.
  intros Hvalid. split; [|done].
  destruct (Write_mem b σ) as [Hm|[Hnz Hout]].
  - by rewrite Hm, take_contents, insert_insert_eq.
  - destruct (valid_allocated _ _ Hvalid); done.
Qed.

Lemma valid_insert_fresh (h : heap) (l : loc) (arr : list ascii) (b : slice) :
  valid h b → l ∉ dom h → valid (<[l := arr]> h) b.
Proof.
  intros [Hz|(a & Ha & Hlen)] Hl; [by left|right].
  exists a. split; [|done]. rewrite lookup_insert_ne; [done|].
  intros Heq. apply Hl. rewrite Heq. apply elem_of_dom. eauto.
Qed.

Lemma contents_insert_fresh (h : heap) (l : loc) (arr : list ascii) (b : slice) :
  valid h b → l ∉ dom h → contents (<[l := arr]> h) b = contents h b.
Proof.
  intros Hvalid Hl. destruct (valid_allocated _ _ Hvalid) as [Hz|Hin].
  - by rewrite !contents_empty.
  - apply contents_insert_ne. intros Heq. apply Hl. by rewrite <- Heq.
Qed.

(** X16. Chunks sent by successive calls of [Write] never share memory:
    after any sequence of writes, the channel was sent one slice per call,
    in call order, each on a backing array of its own that did not exist
    before, each holding the contents its argument had; and every slice
    that existed before still reads as it did. *)
Theorem write_all_copies (bs : list slice) (σ : world) :
  Forall (valid (mem σ)) bs →
  ∃ ds, sent (write_all bs σ) = sent σ ++ ds ∧
        List.map (contents (mem (write_all bs σ))) ds = List.map (contents (mem σ)) bs ∧
        NoDup (List.map base ds) ∧
        (∀ d, d ∈ ds → base d ∉ dom (mem σ)) ∧
        (∀ b0, base b0 ∈ dom (mem σ) →
               contents (mem (write_all bs σ)) b0 = contents (mem σ) b0).
Proof.
  revert σ. induction bs as [|b bs IH]; intros σ Hvalid.
  - exists []. rewrite app_nil_r. split; [done|]. split; [done|].
    split; [constructor|]. split; [|done]. intros d Hd. by apply elem_of_nil in Hd.
  - apply Forall_cons in Hvalid as [Hb Hbs].
    destruct (Write_effect b σ Hb) as [Hmem Hsent].
    set (l := fresh (dom (mem σ))) in *.
    assert (l ∉ dom (mem σ)) as Hl by apply is_fresh.
    set (σ1 := (Write b σ).2) in *.
    assert (Forall (valid (mem σ1)) bs) as Hbs1.
    { rewrite Hmem. eapply Forall_impl; [exact Hbs|]. intros b' Hb'.
      by apply valid_insert_fresh. }
    destruct (IH σ1 Hbs1) as (ds & Hds & Hcont & Hnodup & Hfresh & Hold).
    assert (∀ x, x ∈ dom (mem σ) → x ∈ dom (mem σ1)) as Hsub.
    { intros x Hx. rewrite Hmem, dom_insert_L. apply elem_of_union. by right. }
    assert (l ∈ dom (mem σ1)) as Hl1.
    { rewrite Hmem, dom_insert_L. apply elem_of_union. left. by apply elem_of_singleton. }
    exists (mkSlice l 0 (size b) :: ds).
    change (write_all (b :: bs) σ) with (write_all bs σ1).
    split; [|split; [|split; [|split]]].
    + rewrite Hds, Hsent, <- app_assoc. done.
    + cbn [List.map]. f_equal.
      * rewrite Hold by exact Hl1.
        rewrite Hmem. unfold contents at 1. simpl. rewrite lookup_insert_eq. simpl.
        apply take_contents.
      * rewrite Hcont. apply map_ext_in. intros b' Hb'.
        rewrite Hmem. apply contents_insert_fresh; [|done].
        rewrite Forall_forall in Hbs. apply Hbs. by apply list_elem_of_In.
    + cbn [List.map]. simpl. constructor; [|done].
      intros Hin. apply list_elem_of_In, in_map_iff in Hin as (d & Hd & Hin).
      apply list_elem_of_In in Hin. apply (Hfresh d Hin). by rewrite Hd.
    + intros d Hd. apply elem_of_cons in Hd as [->|Hd]; [done|].
      intros Hin. apply (Hfresh d Hd). by apply Hsub.
    + intros b0 Hb0. rewrite Hold by (by apply Hsub).
      rewrite Hmem. apply contents_insert_ne. intros Heq. apply Hl. by rewrite <- Heq.
Qed.

End WriterExtras.

Lemma write_all_copies_witness :
  ∃ ds, relay_writer.sent (write_all [sample_slice; sample_tail] sample_world)
        = relay_writer.sent sample_world ++ ds ∧
        List.map (relay_writer.contents
                    (relay_writer.mem (write_all [sample_slice; sample_tail] sample_world))) ds
        = List.map (relay_writer.contents (relay_writer.mem sample_world))
            [sample_slice; sample_tail] ∧
        NoDup (List.map relay_writer.base ds) ∧
        (∀ d, d ∈ ds → relay_writer.base d ∉ dom (relay_writer.mem sample_world)) ∧
        (∀ b0, relay_writer.base b0 ∈ dom (relay_writer.mem sample_world) →
               relay_writer.contents
                 (relay_writer.mem (write_all [sample_slice; sample_tail] sample_world)) b0
               = relay_writer.contents (relay_writer.mem sample_world) b0).
Proof.
  apply (write_all_copies [sample_slice; sample_tail] sample_world).
  apply List.Forall_cons; [|apply List.Forall_cons; [|apply List.Forall_nil]];
    right; exists (list_ascii_of_string "abc"); (split; [reflexivity|simpl; lia]).
Defined.

(** ** How many frames a stream of the date endpoint carries *)

Section CountExtras.
Context `{Codec}.

Lemma finished_wire (e : Endpoint) (w : ResponseWriter) (r : Request) (s : Conn) :
  rtc step (sseStart e w r) s →
  finished s →
  wire (w_calls (conn_w s)) = wire (w_calls w) ++ flat_map forward (chunks (HandleSSE e r)).
Proof.
  intros Hrun Hfin.
  destruct (reachable_inv _ _ Hrun (sseStart_inv e w r)) as [Hinv Heq].
  rewrite sseStart_future in Heq. simpl in Heq.
  rewrite (future_finished s Hinv Hfin), app_nil_r in Heq. done.
Qed.

Lemma bodies_forward_all (l : list string) :
  (∀ c, c ∈ l → is_Some (Marshal (wrap c))) →
  List.length (bodies (flat_map forward l)) = List.length l.
Proof.
  induction l as [|d l IH]; intros Hall; [done|].
  cbn [flat_map]. rewrite bodies_app, length_app, IH.
  - destruct (Hall d) as [j Hj]; [by left|].
    unfold forward. rewrite Hj. done.
  - intros c Hc. apply Hall. by right.
Qed.

(** X17. The date endpoint reaches its limit: on a finished stream whose
    chunks all encode, the connection carries one frame for each of the
    first [maxCount] ticks, neither fewer nor more: as many frames as the
    limit when the client stays for that many ticks, as many as there were
    ticks when it leaves earlier. *)
Theorem date_stream_count (ticks : list string) (w : ResponseWriter) (r : Request) (s : Conn) :
  rtc step (sseStart (date.New ticks) w r) s →
  finished s →
  (∀ utc, utc ∈ ticks → is_Some (Marshal (wrap (date.Marshal_DateResponse utc)))) →
  List.length (bodies (w_calls (conn_w s)))
  = (List.length (bodies (w_calls w))
     + Z.to_nat (date.maxCount_of r) `min` List.length ticks)%nat.
Proof.
  intros Hrun Hfin Hall.
  pose proof (finished_wire _ _ _ _ Hrun Hfin) as Hwire.
  apply (f_equal bodies) in Hwire. rewrite bodies_app, !bodies_wire in Hwire.
  rewrite Hwire, length_app. f_equal.
  rewrite bodies_forward_all.
  - by rewrite date_chunks_take, length_map, length_take.
  - intros c Hc. rewrite date_chunks_take in Hc.
    apply list_elem_of_fmap in Hc as (utc & -> & Hutc).
    apply Hall. apply elem_of_take in Hutc as (i & Hi & _).
    by apply list_elem_of_lookup_2 in Hi.
Qed.

End CountExtras.

Lemma date_stream_count_witness :
  List.length
    (bodies (w_calls (conn_w (@final json_codec
                                (HandleSSE (date.New three_ticks)
                                   (get "/date/stream" (max_count_is "2")))
                                opened_writer))))
  = (List.length (bodies (w_calls opened_writer))
     + Z.to_nat (date.maxCount_of (get "/date/stream" (max_count_is "2")))
       `min` List.length three_ticks)%nat.
Proof.
  apply (@date_stream_count json_codec three_ticks opened_writer
           (get "/date/stream" (max_count_is "2")) _ (sseStart_run _ _ _)).
  - reflexivity.
  - intros utc _. eexists. reflexivity.
Defined.

Example date_two_of_three :
  List.length (bodies (w_calls (@sseHandler json_codec (date.New three_ticks) fresh_writer
                                  (get "/date/stream" (max_count_is "2")))))
  = 2%nat.
Proof. vm_compute. reflexivity. Qed.

(** ** The single-shot route when encoding fails *)

Section EncodeExtras.
Context `{Codec}.


End EncodeExtras.

